(** * Addlee matching engine: a shallow embedding of [src/lib/matching-engine.js]

    The engine turns free-text profiles into TF-IDF vectors, compares them by
    cosine similarity, blends the result with a Jaccard score over the tags
    and ranks every creator/hotel pair.

    The embedding is written once over an interface [JSNumber] of the
    operations on JavaScript numbers the engine uses, and read at two
    instances:
    - [F64]: IEEE-754 binary64, the numbers JavaScript computes with (the
      kernel's primitive floats, so every function runs);
    - [Exact]: the real numbers extended with [NaN], the arithmetic the
      specification reasons in.
    A property that does not depend on the arithmetic is proved for every
    instance; a property of the order of the scores is proved for [F64] from
    the IEEE-754 specification of subtraction and comparison; a property of
    the values of the numbers is proved for [Exact], and refuted on [F64]
    where rounding breaks it.  [Math.log] and [parseFloat] are
    parameters of the functions that call them: ECMAScript leaves the digits
    of [Math.log] to the implementation and fixes [Math.log(1) = +0].

    Strings are sequences of code points in U+0000..U+00FF (Latin-1).
    Objects used as maps are association lists in creation order, enumerated
    in the order of [Object.keys] and looked up through the prototype chain
    of a plain object.  A profile field is [None] when it is absent and holds
    a string (a list of strings for [tags]) when it is present.
    [Array.prototype.sort] is the stable sort ECMAScript requires. *)

From Stdlib Require Import List String Ascii Bool Arith PeanoNat NArith ZArith Lia.
From Stdlib Require Import Permutation Sorted.
From Stdlib Require Import Reals Lra.
From Stdlib Require PrimFloat Uint63 Floats.
Import ListNotations.

Local Open Scope string_scope.
Local Open Scope nat_scope.
Local Open Scope list_scope.

(** ** Strings *)

Module Str.

Definition code (c : ascii) : nat := nat_of_ascii c.

Definition between (lo hi n : nat) : bool := (lo <=? n) && (n <=? hi).

(** [String.prototype.toLowerCase] on one Latin-1 code point: A-Z and the
    accented capitals U+00C0..U+00DE (but not the multiplication sign U+00D7)
    move up by 32. *)
Definition lower_char (c : ascii) : ascii :=
  let n := code c in
  if between 65 90 n || (between 192 222 n && negb (n =? 215))
  then ascii_of_nat (n + 32) else c.

Fixpoint toLowerCase (s : string) : string :=
  match s with
  | EmptyString => EmptyString
  | String c r => String (lower_char c) (toLowerCase r)
  end.

(** The class [\s] of a JavaScript regular expression, within Latin-1:
    TAB, LF, VT, FF, CR, SPACE and NO-BREAK SPACE. *)
Definition is_space (c : ascii) : bool :=
  let n := code c in between 9 13 n || (n =? 32) || (n =? 160).

Definition is_lower_alnum (c : ascii) : bool :=
  let n := code c in between 97 122 n || between 48 57 n.

(** [s.replace(/[^a-z0-9\s]/g, '')] *)
Fixpoint strip (s : string) : string :=
  match s with
  | EmptyString => EmptyString
  | String c r =>
      if is_lower_alnum c || is_space c then String c (strip r) else strip r
  end.

(** [s.split(/\s+/)]: the pieces between maximal runs of white space; a run
    at either end leaves an empty piece there, and the empty string splits
    into one empty piece.  [cur] is the piece being read, [skipping] says
    that the previous character belonged to a separator. *)
Fixpoint split_ws (cur : string) (skipping : bool) (s : string) : list string :=
  match s with
  | EmptyString => [cur]
  | String c r =>
      if is_space c
      then (if skipping then split_ws cur true r else cur :: split_ws "" true r)
      else split_ws (cur ++ String c "")%string false r
  end.

(** [parts.join(sep)] *)
Definition join (sep : string) (parts : list string) : string :=
  String.concat sep parts.

End Str.

(** [tokenize(text)] *)
Definition tokenize (text : string) : list string :=
  filter (fun w => 1 <? String.length w)
         (Str.split_ws "" false (Str.strip (Str.toLowerCase text))).

(** ** JavaScript numbers *)

(** The operations on numbers the engine uses.  [truthy] is the boolean
    value of a number ([0] and [NaN] are falsy), [strict_eq] is [===] and
    [js_gt] is [>]. *)
Class JSNumber : Type := {
  num : Type;
  NaN : num;
  of_nat : nat -> num;
  lit_0_6 : num;
  lit_0_4 : num;
  lit_0_3 : num;
  lit_0_15 : num;
  js_add : num -> num -> num;
  js_sub : num -> num -> num;
  js_mul : num -> num -> num;
  js_div : num -> num -> num;
  Math_sqrt : num -> num;
  Math_round : num -> num;
  Math_min : num -> num -> num;
  truthy : num -> bool;
  strict_eq : num -> num -> bool;
  js_gt : num -> num -> bool
}.

(** ** Plain objects used as maps *)

Module Obj.

(** The property names every plain object inherits from [Object.prototype]. *)
Definition prototype_names : list string :=
  [ "constructor"; "__defineGetter__"; "__defineSetter__"; "hasOwnProperty";
    "__lookupGetter__"; "__lookupSetter__"; "isPrototypeOf";
    "propertyIsEnumerable"; "toString"; "valueOf"; "__proto__";
    "toLocaleString" ].

Definition inherited (k : string) : bool :=
  existsb (String.eqb k) prototype_names.

(** An array index is the canonical decimal form of an integer below
    [2^32 - 1]; own keys of that form are enumerated first, in numeric
    order. *)
Fixpoint digits_value (acc : N) (s : string) : option N :=
  match s with
  | EmptyString => Some acc
  | String c r =>
      let n := Str.code c in
      if Str.between 48 57 n
      then digits_value (10 * acc + N.of_nat (n - 48))%N r
      else None
  end.

Definition array_index (k : string) : option N :=
  match k with
  | EmptyString => None
  | String c r =>
      if (Str.code c =? 48) && negb (String.length r =? 0) then None
      else match digits_value 0 k with
           | Some v => if (v <? 4294967295)%N then Some v else None
           | None => None
           end
  end.

Fixpoint insert_index (x : N * string) (l : list (N * string)) : list (N * string) :=
  match l with
  | [] => [x]
  | y :: r => if (fst x <? fst y)%N then x :: l else y :: insert_index x r
  end.

Definition index_keys (ks : list string) : list (N * string) :=
  flat_map (fun k => match array_index k with
                     | Some n => [(n, k)]
                     | None => []
                     end) ks.

Definition is_index (k : string) : bool :=
  match array_index k with Some _ => true | None => false end.

(** The order of [Object.keys] and of [for ... in] over own properties. *)
Definition enumeration_order (ks : list string) : list string :=
  map snd (fold_right insert_index [] (index_keys ks))
  ++ filter (fun k => negb (is_index k)) ks.

Section Objects.

Context {V : Type}.

(** Own properties, in creation order. *)
Definition t : Type := list (string * V).

Fixpoint own (o : t) (k : string) : option V :=
  match o with
  | [] => None
  | (k', v) :: r => if String.eqb k' k then Some v else own r k
  end.

(** [o[k] = v]: an existing own property keeps its place.  The keys the
    engine assigns under are tokens, which are made of lower-case letters
    and digits: the key ["__proto__"], under which an assignment sets the
    prototype and creates no own property, is not among them. *)
Fixpoint set (o : t) (k : string) (v : V) : t :=
  match o with
  | [] => [(k, v)]
  | (k', v') :: r =>
      if String.eqb k' k then (k', v) :: r else (k', v') :: set r k v
  end.

Definition keys (o : t) : list string := enumeration_order (map fst o).

End Objects.

Arguments t : clear implicits.

End Obj.

(** ** Sets of strings ([new Set(...)]), in insertion order *)

Module StrSet.

Definition has (s : list string) (x : string) : bool :=
  existsb (String.eqb x) s.

Definition add (s : list string) (x : string) : list string :=
  if has s x then s else s ++ [x].

Definition from (l : list string) : list string := fold_left add l [].

End StrSet.

(** ** Profiles and match results *)

(** A profile object; [None] is an absent ([undefined]) field.  The engine
    reads no other field. *)
Record Profile : Type := {
  name : option string;
  description : option string;
  tags : option (list string);
  niche : option string;
  location : option string;
  type : option string;
  engagement : option string;
  rating : option string;
  collabs : option string
}.

(** [field || ''] and [profile.tags || []] *)
Definition or_empty (f : option string) : string :=
  match f with Some s => s | None => "" end.

Definition or_nil (f : option (list string)) : list string :=
  match f with Some l => l | None => [] end.

(** A field inside a template literal: [undefined] prints as its name. *)
Definition template (f : option string) : string :=
  match f with Some s => s | None => "undefined" end.

(** [buildProfileText(profile)] *)
Definition buildProfileText (profile : Profile) : string :=
  let parts :=
    [ or_empty (name profile); or_empty (description profile) ]
    ++ or_nil (tags profile)
    ++ [ or_empty (niche profile); or_empty (location profile);
         or_empty (type profile) ] in
  Str.join " " parts.

(** ** The engine, over any arithmetic *)

Section Engine.

Context {J : JSNumber}.

(** [Math.log] and [parseFloat]. *)
Variable Math_log : num -> num.
Variable parseFloat : string -> num.

(** The values a property of the engine's objects can hold or yield: a
    number, [undefined], a string that is not a numeral, or a function
    inherited from the prototype. *)
Inductive jsval : Type :=
| VUndef
| VNum (x : num)
| VStr
| VFun.

Definition ToBoolean (v : jsval) : bool :=
  match v with
  | VUndef => false
  | VNum x => truthy x
  | VStr => true
  | VFun => true
  end.

Definition ToNumber (v : jsval) : num :=
  match v with
  | VNum x => x
  | VUndef | VStr | VFun => NaN
  end.

(** [v || w] *)
Definition js_or (v w : jsval) : jsval := if ToBoolean v then v else w.

(** [v + x] for a number [x]: addition on numbers, concatenation once the
    left operand is a string or prints as one. *)
Definition js_plus (v : jsval) (x : num) : jsval :=
  match v with
  | VNum y => VNum (js_add y x)
  | VUndef => VNum NaN
  | VStr | VFun => VStr
  end.

Definition object : Type := Obj.t jsval.

(** [o[k]], through the prototype chain. *)
Definition get (o : object) (k : string) : jsval :=
  match Obj.own o k with
  | Some v => v
  | None => if Obj.inherited k then VFun else VUndef
  end.

(** [o[k] = (o[k] || 0) + 1] *)
Definition increment (o : object) (k : string) : object :=
  Obj.set o k (js_plus (js_or (get o k) (VNum (of_nat 0))) (of_nat 1)).

(** [termFrequency(tokens)] *)
Definition termFrequency (tokens : list string) : object :=
  let tf := fold_left increment tokens [] in
  let total := js_or (VNum (of_nat (List.length tokens))) (VNum (of_nat 1)) in
  map (fun kv => (fst kv, VNum (js_div (ToNumber (snd kv)) (ToNumber total)))) tf.

(** [inverseDocumentFrequency(documents)] *)
Definition inverseDocumentFrequency (documents : list string) : object :=
  let n := of_nat (List.length documents) in
  let idf :=
    fold_left (fun idf doc => fold_left increment (StrSet.from (tokenize doc)) idf)
              documents [] in
  map (fun kv =>
         (fst kv, VNum (js_add (Math_log (js_div n (ToNumber (snd kv)))) (of_nat 1))))
      idf.

(** [tfidfVector(text, idf)] *)
Definition tfidfVector (text : string) (idf : object) : object :=
  let tokens := tokenize text in
  let tf := termFrequency tokens in
  fold_left
    (fun vector word =>
       if ToBoolean (get idf word)
       then Obj.set vector word
              (VNum (js_mul (ToNumber (get tf word)) (ToNumber (get idf word))))
       else vector)
    (Obj.keys tf) [].

(** [cosineSimilarity(vecA, vecB)] *)
Definition cosineSimilarity (vecA vecB : object) : num :=
  let allKeys := StrSet.from (Obj.keys vecA ++ Obj.keys vecB) in
  let '(dot, magA, magB) :=
    fold_left
      (fun acc key =>
         let '(dot, magA, magB) := acc in
         let a := ToNumber (js_or (get vecA key) (VNum (of_nat 0))) in
         let b := ToNumber (js_or (get vecB key) (VNum (of_nat 0))) in
         (js_add dot (js_mul a b), js_add magA (js_mul a a), js_add magB (js_mul b b)))
      allKeys (of_nat 0, of_nat 0, of_nat 0) in
  let magnitude := js_mul (Math_sqrt magA) (Math_sqrt magB) in
  if strict_eq magnitude (of_nat 0) then of_nat 0 else js_div dot magnitude.

(** [tagOverlapScore(tagsA, tagsB)] *)
Definition tagOverlapScore (tagsA tagsB : list string) : num :=
  let setA := StrSet.from (map Str.toLowerCase tagsA) in
  let setB := StrSet.from (map Str.toLowerCase tagsB) in
  let overlap :=
    fold_left (fun overlap tag =>
                 if StrSet.has setB tag then js_add overlap (of_nat 1) else overlap)
              setA (of_nat 0) in
  let union := of_nat (List.length (StrSet.from (setA ++ setB))) in
  if strict_eq union (of_nat 0) then of_nat 0 else js_div overlap union.

(** [generateExplanation(creator, hotel, textSim, tagScore)] *)
Definition generateExplanation (creator hotel : Profile) (textSim tagScore : num) : string :=
  let creatorTags := StrSet.from (map Str.toLowerCase (or_nil (tags creator))) in
  let hotelTags := StrSet.from (map Str.toLowerCase (or_nil (tags hotel))) in
  let shared := filter (StrSet.has hotelTags) creatorTags in
  let parts : list string := [] in
  let parts :=
    if 0 <? List.length shared
    then parts ++ ["Both share interests in " ++ Str.join ", " shared]%string
    else parts in
  let parts :=
    if js_gt textSim lit_0_3
    then parts ++ [template (name creator) ++ "'s content style aligns strongly with "
                   ++ template (name hotel) ++ "'s brand"]%string
    else if js_gt textSim lit_0_15
    then parts ++ [template (name creator) ++ "'s profile shows good alignment with "
                   ++ template (name hotel) ++ "'s target audience"]%string
    else parts in
  let parts :=
    match engagement creator with
    | Some e =>
        if negb (String.length e =? 0) && js_gt (parseFloat e) (of_nat 4)
        then parts ++ ["High engagement rate (" ++ e
                       ++ ") suggests strong audience connection"]%string
        else parts
    | None => parts
    end in
  let parts :=
    if List.length parts =? 0
    then parts ++ [template (name creator)
                   ++ "'s creative approach could bring a fresh perspective to "
                   ++ template (name hotel) ++ "'s content strategy"]%string
    else parts in
  (Str.join ". " parts ++ ".")%string.

(** An element of the array [computeMatches] returns. *)
Record Match : Type := {
  creator : Profile;
  hotel : Profile;
  score : num;
  textSimilarity : num;
  tagOverlap : num;
  explanation : string
}.

(** [Array.prototype.sort(compare)].  ECMAScript requires the sort to be
    stable and reads [compare(x, y) > 0] as "x comes after y" (a [NaN] counts
    as 0), which for a consistent [compare] fixes the result: each element
    moves past exactly the later elements it must come after. *)
Section Sort.

Context {A : Type} (compare : A -> A -> num).

Fixpoint sort_insert (x : A) (l : list A) : list A :=
  match l with
  | [] => [x]
  | y :: r =>
      if js_gt (compare x y) (of_nat 0) then y :: sort_insert x r else x :: l
  end.

Definition Array_sort (l : list A) : list A := fold_right sort_insert [] l.

End Sort.

(** The body of the inner loop: the match pushed for one pair. *)
Definition matchPair (creator hotel : Profile * object) : Match :=
  let textSimilarity := cosineSimilarity (snd creator) (snd hotel) in
  let tagScore :=
    tagOverlapScore (or_nil (tags (fst creator))) (or_nil (tags (fst hotel))) in
  let score := js_add (js_mul textSimilarity lit_0_6) (js_mul tagScore lit_0_4) in
  let SCORE_OFFSET := of_nat 50 in
  let MAX_DISPLAY_SCORE := of_nat 99 in
  let percentage :=
    Math_min (Math_round (js_add (js_mul score (of_nat 100)) SCORE_OFFSET))
             MAX_DISPLAY_SCORE in
  let explanation :=
    generateExplanation (fst creator) (fst hotel) textSimilarity tagScore in
  {| creator := fst creator;
     hotel := fst hotel;
     score := percentage;
     textSimilarity := Math_round (js_mul textSimilarity (of_nat 100));
     tagOverlap := Math_round (js_mul tagScore (of_nat 100));
     explanation := explanation |}.

(** The array [matches] before it is sorted: one entry per pair, the creators
    in the outer loop and the hotels in the inner one. *)
Definition allPairs (creators hotels : list Profile) : list Match :=
  let allProfiles := creators ++ hotels in
  let allTexts := map buildProfileText allProfiles in
  let idf := inverseDocumentFrequency allTexts in
  let creatorVectors :=
    map (fun c => (c, tfidfVector (buildProfileText c) idf)) creators in
  let hotelVectors :=
    map (fun h => (h, tfidfVector (buildProfileText h) idf)) hotels in
  flat_map (fun creator => map (fun hotel => matchPair creator hotel) hotelVectors)
           creatorVectors.

(** The comparison function of the final sort: [(a, b) => b.score - a.score]. *)
Definition compareMatches (a b : Match) : num := js_sub (score b) (score a).

(** [computeMatches(creators, hotels)] *)
Definition computeMatches (creators hotels : list Profile) : list Match :=
  Array_sort compareMatches (allPairs creators hotels).

End Engine.

(** ** The binary64 instance *)

Module Binary64.

Import PrimFloat.
Local Open Scope float_scope.

(** Array lengths and counters are exact in binary64 (they stay far below
    [2^53]). *)
Definition of_nat (n : nat) : float := of_uint63 (Uint63.of_Z (Z.of_nat n)).

(** Decimal literals denote the nearest binary64 value, which is what the
    correctly rounded quotient of two small integers is. *)
Definition lit (m d : nat) : float := of_nat m / of_nat d.

Definition two52 : float := 4503599627370496.

(** The largest integer below or at [x], for [0 <= x < 2^52]: adding [2^52]
    rounds [x] to an integer, exactly. *)
Definition floor_small (x : float) : float :=
  let r := (x + two52) - two52 in
  if x <? r then r - 1 else r.

(** [Math.round]: the nearest integer, a tie going up.  Values from [2^52]
    on, the infinities, the zeros and [NaN] are returned as they are. *)
Definition round (x : float) : float :=
  if is_nan x || (x =? 0) || (two52 <=? abs x) then x
  else if 0 <? x then
    let f := floor_small x in
    if lit 1 2 <=? x - f then f + 1 else f
  else
    let y := - x in
    let f := floor_small y in
    if lit 1 2 <? y - f then - (f + 1) else - f.

(** [Math.min]: [NaN] if either argument is, and [-0] below [+0]. *)
Definition min (x y : float) : float :=
  if is_nan x || is_nan y then nan
  else if x <? y then x
  else if y <? x then y
  else if (1 / x) <? 0 then x else y.

Definition truthy (x : float) : bool := negb (is_nan x || (x =? 0)).

End Binary64.

(** Binary64 arithmetic: the kernel's primitive floats implement IEEE-754
    addition, subtraction, multiplication, division and square root, and
    comparison is the IEEE one. *)
Definition F64 : JSNumber := {|
  num := PrimFloat.float;
  NaN := PrimFloat.nan;
  of_nat := Binary64.of_nat;
  lit_0_6 := Binary64.lit 6 10;
  lit_0_4 := Binary64.lit 4 10;
  lit_0_3 := Binary64.lit 3 10;
  lit_0_15 := Binary64.lit 15 100;
  js_add := PrimFloat.add;
  js_sub := PrimFloat.sub;
  js_mul := PrimFloat.mul;
  js_div := PrimFloat.div;
  Math_sqrt := PrimFloat.sqrt;
  Math_round := Binary64.round;
  Math_min := Binary64.min;
  truthy := Binary64.truthy;
  strict_eq := PrimFloat.eqb;
  js_gt := fun x y => PrimFloat.ltb y x
|}.

(** ** The exact instance *)

Module ExactReal.

Local Open Scope R_scope.

(** A real number, or [NaN]. *)
Inductive xreal : Type :=
| XNaN
| Fin (r : R).

Definition lift2 (f : R -> R -> R) (x y : xreal) : xreal :=
  match x, y with
  | Fin a, Fin b => Fin (f a b)
  | _, _ => XNaN
  end.

(** Exact arithmetic has no infinities: a quotient by zero and the logarithm
    of zero are [XNaN] here.  The engine guards every division, so it never
    reaches them. *)
Definition xdiv (x y : xreal) : xreal :=
  match x, y with
  | Fin a, Fin b => if Req_EM_T b 0 then XNaN else Fin (a / b)
  | _, _ => XNaN
  end.

Definition xsqrt (x : xreal) : xreal :=
  match x with
  | Fin a => if Rlt_dec a 0 then XNaN else Fin (sqrt a)
  | XNaN => XNaN
  end.

Definition xlog (x : xreal) : xreal :=
  match x with
  | Fin a => if Rlt_dec 0 a then Fin (ln a) else XNaN
  | XNaN => XNaN
  end.

(** The nearest integer, a tie going up: the integer part of [a + 1/2]. *)
Definition round_half_up (a : R) : Z := Int_part (a + / 2).

Definition xround (x : xreal) : xreal :=
  match x with
  | Fin a => Fin (IZR (round_half_up a))
  | XNaN => XNaN
  end.

Definition xtruthy (x : xreal) : bool :=
  match x with
  | Fin a => if Req_EM_T a 0 then false else true
  | XNaN => false
  end.

Definition xeq (x y : xreal) : bool :=
  match x, y with
  | Fin a, Fin b => if Req_EM_T a b then true else false
  | _, _ => false
  end.

Definition xgt (x y : xreal) : bool :=
  match x, y with
  | Fin a, Fin b => if Rlt_dec b a then true else false
  | _, _ => false
  end.

End ExactReal.

(** Exact arithmetic is the arithmetic of the formulas of the
    specification, not of the program: it does not round, and it has no
    infinities (a division by zero and the logarithm of zero are [NaN]).
    Its results can differ from those of binary64: 23 shared tags of 40 are
    0.575 here, with the percentage 58, and 0.57499999999999996 in binary64,
    with the percentage 57.  A theorem about [Exact] says so in its
    statement. *)
Definition Exact : JSNumber := {|
  num := ExactReal.xreal;
  NaN := ExactReal.XNaN;
  of_nat := fun n => ExactReal.Fin (INR n);
  lit_0_6 := ExactReal.Fin (6 / 10);
  lit_0_4 := ExactReal.Fin (4 / 10);
  lit_0_3 := ExactReal.Fin (3 / 10);
  lit_0_15 := ExactReal.Fin (15 / 100);
  js_add := ExactReal.lift2 Rplus;
  js_sub := ExactReal.lift2 Rminus;
  js_mul := ExactReal.lift2 Rmult;
  js_div := ExactReal.xdiv;
  Math_sqrt := ExactReal.xsqrt;
  Math_round := ExactReal.xround;
  Math_min := ExactReal.lift2 Rmin;
  truthy := ExactReal.xtruthy;
  strict_eq := ExactReal.xeq;
  js_gt := ExactReal.xgt
|}.

(** ** Vocabulary of the properties *)

(** The three scores of a match. *)
Definition scores {J : JSNumber} (m : @Match J) : num * num * num :=
  (score m, textSimilarity m, tagOverlap m).

(** The pair a match was computed for. *)
Definition pair_of {J : JSNumber} (m : @Match J) : Profile * Profile :=
  (creator m, hotel m).

(** What the scoring reads of a profile: its text and its tags. *)
Definition scoring_view (p : Profile) : string * list string :=
  (buildProfileText p, or_nil (tags p)).

(** A profile with its absent name, description and tags filled in as the
    empty string and the empty list. *)
Definition with_defaults (p : Profile) : Profile :=
  {| name := Some (or_empty (name p));
     description := Some (or_empty (description p));
     tags := Some (or_nil (tags p));
     niche := niche p;
     location := location p;
     type := type p;
     engagement := engagement p;
     rating := rating p;
     collabs := collabs p |}.

(** Two profiles that differ at most in [engagement], [rating] and
    [collabs]. *)
Definition same_text_fields (p q : Profile) : Prop :=
  name p = name q /\ description p = description q /\ tags p = tags q /\
  niche p = niche q /\ location p = location q /\ type p = type q.

(** Two profiles that differ at most in the auxiliary fields the
    specification lists. *)
Definition same_core_fields (p q : Profile) : Prop :=
  name p = name q /\ description p = description q /\ tags p = tags q.

(** The comparison function of [computeMatches], on the scores alone. *)
Definition by_score_desc {J : JSNumber} (a b : num * num * num) : num :=
  js_sub (fst (fst b)) (fst (fst a)).

(** The scores of one pair, as a function of what the scoring reads. *)
Definition view_scores {J : JSNumber} (parseFloat : string -> num) (idf : object)
    (c h : string * list string) : num * num * num :=
  scores (matchPair parseFloat
            ({| name := None; description := None; tags := Some (snd c);
                niche := None; location := None; type := None;
                engagement := None; rating := None; collabs := None |},
             tfidfVector (fst c) idf)
            ({| name := None; description := None; tags := Some (snd h);
                niche := None; location := None; type := None;
                engagement := None; rating := None; collabs := None |},
             tfidfVector (fst h) idf)).

(** The cell a counter holds after [c] increments: a number for an ordinary
    key, a string for a key that shadows a member of the prototype. *)
Definition cell (k : string) (c : nat) : option (@jsval Exact) :=
  match c with
  | O => None
  | S _ => Some (if Obj.inherited k then VStr else VNum (J:=Exact) (ExactReal.Fin (INR c)))
  end.

(** How often a token occurs in a token list, and in how many documents. *)
Definition occurrences (tokens : list string) (k : string) : nat :=
  count_occ string_dec tokens k.

Definition documentCount (documents : list string) (k : string) : nat :=
  List.length (filter (fun doc => StrSet.has (tokenize doc) k) documents).

(** A vector of the exact engine whose entries are non-negative numbers and
    whose keys shadow no member of the prototype. *)
Definition plain_entry (kv : string * @jsval Exact) : Prop :=
  Obj.inherited (fst kv) = false /\
  exists r : R, snd kv = VNum (J:=Exact) (ExactReal.Fin r) /\ (0 <= r)%R.

Definition plain_vector (v : @object Exact) : Prop := Forall plain_entry v.

(** The entry of a vector under a key, [0] for a key it does not hold. *)
Definition entry (v : @object Exact) (k : string) : R :=
  match Obj.own v k with
  | Some (VNum (ExactReal.Fin r)) => r
  | _ => 0%R
  end.

(** Sums over a list of keys. *)
Definition sum_over (ks : list string) (f : string -> R) : R :=
  fold_right (fun k s => (f k + s)%R) 0%R ks.

(** The keys [cosineSimilarity] runs over, and the three sums it forms. *)
Definition allKeys {J : JSNumber} (a b : @object J) : list string :=
  StrSet.from (Obj.keys a ++ Obj.keys b).

Definition dot (ks : list string) (a b : @object Exact) : R :=
  sum_over ks (fun k => (entry a k * entry b k)%R).

Definition norm_sq (ks : list string) (a : @object Exact) : R :=
  sum_over ks (fun k => (entry a k * entry a k)%R).

(** The number the loop of [cosineSimilarity] reads under a key:
    [vec[key] || 0]. *)
Definition value_or0 {J : JSNumber} (v : @object J) (k : string) : num :=
  ToNumber (js_or (get v k) (VNum (of_nat 0))).

(** One turn of the loop of [cosineSimilarity]. *)
Definition cosine_step {J : JSNumber} (a b : @object J)
    (acc : num * num * num) (key : string) : num * num * num :=
  let '(dot, magA, magB) := acc in
  (js_add dot (js_mul (value_or0 a key) (value_or0 b key)),
   js_add magA (js_mul (value_or0 a key) (value_or0 a key)),
   js_add magB (js_mul (value_or0 b key) (value_or0 b key))).

(** The displayed score and the percentages, as functions of the exact text
    similarity [t] and tag score [g]. *)
Definition display (t g : R) : Z :=
  Z.min (ExactReal.round_half_up ((t * (6 / 10) + g * (4 / 10)) * 100 + 50)%R) 99.

Definition percent (x : R) : Z := ExactReal.round_half_up (x * 100)%R.

(** The tags two profiles share and the tags either has, without regard to
    case. *)
Definition tagSet (tags : list string) : list string :=
  StrSet.from (map Str.toLowerCase tags).

Definition sharedTags (tagsA tagsB : list string) : list string :=
  filter (StrSet.has (tagSet tagsB)) (tagSet tagsA).

Definition unionTags (tagsA tagsB : list string) : list string :=
  StrSet.from (tagSet tagsA ++ tagSet tagsB).

(** [x] is displayed with a score at least that of [y]. *)
Definition score_ge (x y : @Match Exact) : Prop :=
  exists a b : R,
    score x = ExactReal.Fin a /\ score y = ExactReal.Fin b /\ (b <= a)%R.

(** The matches displayed with the score [s]. *)
Definition with_score {J : JSNumber} (s : num) (l : list (@Match J)) : list (@Match J) :=
  filter (fun m => strict_eq (score m) s) l.

(** An arithmetic in which [y - x > 0] is never true of two numbers that
    both equal a third: the comparison function of the sort then never moves
    a match past another of the same score. *)
Definition ties_respected (J : JSNumber) : Prop :=
  forall x y s : num,
    js_gt (js_sub y x) (of_nat 0) = true ->
    strict_eq x s = true -> strict_eq y s = false.

(** The scores of a match are the rounded blend of the text similarity [t]
    of its two vectors and the tag score [g] of its two tag lists, both
    between 0 and 1. *)
Definition exact_scores (idf : @object Exact) (m : @Match Exact) : Prop :=
  exists t g : R,
    cosineSimilarity (tfidfVector (buildProfileText (creator m)) idf)
                     (tfidfVector (buildProfileText (hotel m)) idf)
    = ExactReal.Fin t /\
    tagOverlapScore (J:=Exact) (or_nil (tags (creator m))) (or_nil (tags (hotel m)))
    = ExactReal.Fin g /\
    (0 <= t <= 1)%R /\ (0 <= g <= 1)%R /\
    scores m = (ExactReal.Fin (IZR (display t g)),
                ExactReal.Fin (IZR (percent t)),
                ExactReal.Fin (IZR (percent g))).

(** Two lists of strings with no common element. *)
Definition disjointb (l1 l2 : list string) : bool :=
  forallb (fun x => negb (StrSet.has l2 x)) l1.

(** A vector whose entries are numbers, of either sign. *)
Definition numeric_vector (v : @object Exact) : Prop :=
  Forall (fun kv => exists r : R, snd kv = VNum (J:=Exact) (ExactReal.Fin r)) v.

(** ** The results page ([src/app/ai-matching/page.js]) *)

(** The page compares scores with [>=] and [<] as well.  [x < y] is [y > x];
    [x >= y] is a comparison of its own, false like the others when either
    side is [NaN]. *)
Class JSCompare (J : JSNumber) : Type := {
  js_ge : num -> num -> bool
}.

Definition js_lt {J : JSNumber} (x y : num) : bool := js_gt y x.

Definition F64_ge (x y : PrimFloat.float) : bool := PrimFloat.leb y x.

#[export] Instance F64_compare : JSCompare F64 := Build_JSCompare F64 F64_ge.

Definition Exact_ge (x y : ExactReal.xreal) : bool :=
  match x, y with
  | ExactReal.Fin a, ExactReal.Fin b => if Rle_dec b a then true else false
  | _, _ => false
  end.

#[export] Instance Exact_compare : JSCompare Exact := Build_JSCompare Exact Exact_ge.

Section Page.

Context {J : JSNumber} {C : JSCompare J}.

(** The callback of [matches.filter(...)], for the states [filter] and
    [minScore] of the page. *)
Definition shown (filter : string) (minScore : num) (m : Match) : bool :=
  if js_lt (score m) minScore then false
  else if String.eqb filter "top" then js_ge (score m) (of_nat 80)
  else if String.eqb filter "good"
       then js_ge (score m) (of_nat 65) && js_lt (score m) (of_nat 80)
  else true.

Definition filteredMatches (matches : list Match) (filter : string) (minScore : num)
    : list Match :=
  List.filter (shown filter minScore) matches.

(** The class of the score badge of a match card. *)
Definition scoreClass (m : Match) : string :=
  if js_ge (score m) (of_nat 80) then "score-high"
  else if js_ge (score m) (of_nat 65) then "score-good"
  else "score-fair".

End Page.

(** An arithmetic in which [x < y] rules out [x >= y]. *)
Definition comparisons_agree (J : JSNumber) (C : JSCompare J) : Prop :=
  forall x y : num, js_lt x y = true -> js_ge x y = false.

(** ** Vocabulary of the further properties *)

(** Every character of a string passes a test. *)
Fixpoint all_chars (p : ascii -> bool) (s : string) : bool :=
  match s with
  | EmptyString => true
  | String c r => p c && all_chars p r
  end.

(** A token as [tokenize] admits it: two characters or more. *)
Definition long_enough (w : string) : bool := 1 <? String.length w.

(** The number a counter holds after [c] increments from [0]. *)
Definition count_up {J : JSNumber} (c : nat) : num :=
  Nat.iter c (fun x => js_add x (of_nat 1)) (of_nat 0).



(** Array indices in ascending order. *)
Definition index_le (a b : N * string) : Prop := (fst a <= fst b)%N.

(** ** Proof steps *)

(** Equations between exact numbers reduce to equations between reals. *)
Ltac fin_eq :=
  repeat match goal with
         | |- Some _ = Some _ => apply f_equal
         | |- VNum _ = VNum _ => apply f_equal
         | |- ExactReal.Fin _ = ExactReal.Fin _ => apply f_equal
         end.

(** ** Sample inputs *)

Module Sample.

(** A profile with a description and, possibly, a niche and an engagement
    rate; every other field is absent. *)
Definition described (d : string) (n e : option string) : Profile :=
  {| name := None; description := Some d; tags := None; niche := n;
     location := None; type := None; engagement := e; rating := None;
     collabs := None |}.

(** A profile with a name, a description and tags. *)
Definition named (n d : string) (t : list string) : Profile :=
  {| name := Some n; description := Some d; tags := Some t; niche := None;
     location := None; type := None; engagement := None; rating := None;
     collabs := None |}.

(** A profile with no field at all. *)
Definition blank : Profile :=
  {| name := None; description := None; tags := None; niche := None;
     location := None; type := None; engagement := None; rating := None;
     collabs := None |}.

(** A binary64 vector, from its entries. *)
Definition vector64 (l : list (string * PrimFloat.float)) : @object F64 :=
  map (fun kv => (fst kv, VNum (J:=F64) (snd kv))) l.

(** An exact vector, from its entries. *)
Definition vector (l : list (string * R)) : @object Exact :=
  map (fun kv => (fst kv, VNum (J:=Exact) (ExactReal.Fin (snd kv)))) l.

End Sample.

(** * Properties *)

(** ** Sorting *)

Section SortFacts.

Context {J : JSNumber} {A : Type} (compare : A -> A -> num).

Lemma sort_insert_perm (x : A) (l : list A) :
  Permutation (sort_insert compare x l) (x :: l).
Proof.
  induction l as [|y r IH]; simpl.
  - apply Permutation_refl.
  - destruct (js_gt (compare x y) (of_nat 0)).
    + eapply perm_trans; [apply perm_skip, IH | apply perm_swap].
    + apply Permutation_refl.
Qed.

Lemma Array_sort_perm (l : list A) : Permutation (Array_sort compare l) l.
Proof.
  induction l as [|x r IH]; simpl.
  - constructor.
  - eapply perm_trans; [apply sort_insert_perm | apply perm_skip, IH].
Qed.

Lemma Array_sort_length (l : list A) :
  List.length (Array_sort compare l) = List.length l.
Proof. apply Permutation_length, Array_sort_perm. Qed.

Lemma Array_sort_Forall (P : A -> Prop) (l : list A) :
  Forall P l -> Forall P (Array_sort compare l).
Proof.
  intros H. rewrite Forall_forall in *. intros x Hx. apply H.
  eapply Permutation_in; [apply Array_sort_perm | exact Hx].
Qed.

End SortFacts.

(** Sorting commutes with a projection the comparison factors through. *)
Lemma Array_sort_map {J : JSNumber} {A B : Type} (g : A -> B)
      (cmpA : A -> A -> num) (cmpB : B -> B -> num) :
  (forall x y, cmpA x y = cmpB (g x) (g y)) ->
  forall l, map g (Array_sort cmpA l) = Array_sort cmpB (map g l).
Proof.
  intros Hg l. induction l as [|x r IH]; simpl; [reflexivity|].
  rewrite <- IH. generalize (Array_sort cmpA r). intros s.
  induction s as [|y s IHs]; simpl; [reflexivity|].
  rewrite <- Hg. destruct (js_gt (cmpA x y) (of_nat 0)); simpl.
  - now rewrite IHs.
  - reflexivity.
Qed.

(** The sort is stable: it keeps the matches of one score in the order they
    were generated in. *)
Section Stability.

Context {J : JSNumber} (law : ties_respected J).

Lemma sort_insert_with_score (s : num) (x : Match) (l : list Match) :
  with_score s (sort_insert compareMatches x l) = with_score s (x :: l).
Proof.
  unfold with_score. induction l as [|y r IH]; [reflexivity|].
  cbn [sort_insert]. destruct (js_gt (compareMatches x y) (of_nat 0)) eqn:E.
  - cbn [filter] in *. rewrite IH.
    destruct (strict_eq (score x) s) eqn:Ex; [|reflexivity].
    unfold compareMatches in E. now rewrite (law _ _ _ E Ex).
  - reflexivity.
Qed.

Lemma Array_sort_with_score (s : num) (l : list Match) :
  with_score s (Array_sort compareMatches l) = with_score s l.
Proof.
  induction l as [|x r IH]; [reflexivity|].
  cbn [Array_sort fold_right]. fold (Array_sort compareMatches r).
  rewrite sort_insert_with_score. unfold with_score in *. cbn [filter].
  now rewrite IH.
Qed.

End Stability.

(** ** The cross product *)

Section PairFacts.

Context {J : JSNumber}.
Variable Math_log : num -> num.
Variable parseFloat : string -> num.

Lemma scores_matchPair (idf : object) (c h : Profile) :
  scores (matchPair parseFloat (c, tfidfVector (buildProfileText c) idf)
                    (h, tfidfVector (buildProfileText h) idf))
  = view_scores parseFloat idf (scoring_view c) (scoring_view h).
Proof. reflexivity. Qed.

Lemma scores_allPairs (creators hotels : list Profile) :
  map scores (allPairs Math_log parseFloat creators hotels)
  = flat_map
      (fun c => map (view_scores parseFloat
                       (inverseDocumentFrequency Math_log
                          (map fst (map scoring_view creators ++ map scoring_view hotels)))
                       c)
                    (map scoring_view hotels))
      (map scoring_view creators).
Proof.
  unfold allPairs.
  replace (map fst (map scoring_view creators ++ map scoring_view hotels))
    with (map buildProfileText (creators ++ hotels))
    by (rewrite !map_app, !map_map; reflexivity).
  set (idf := inverseDocumentFrequency Math_log _).
  rewrite !flat_map_concat_map, concat_map, !map_map. f_equal.
  apply map_ext. intros c. rewrite !map_map. apply map_ext. intros h.
  apply scores_matchPair.
Qed.

Lemma scores_computeMatches (creators hotels : list Profile) :
  map scores (computeMatches Math_log parseFloat creators hotels)
  = Array_sort by_score_desc (map scores (allPairs Math_log parseFloat creators hotels)).
Proof. unfold computeMatches. apply Array_sort_map. reflexivity. Qed.

(** The scores depend on the profiles through their text and tags only. *)
Lemma scores_by_view (cs hs cs' hs' : list Profile) :
  map scoring_view cs = map scoring_view cs' ->
  map scoring_view hs = map scoring_view hs' ->
  map scores (computeMatches Math_log parseFloat cs hs)
  = map scores (computeMatches Math_log parseFloat cs' hs').
Proof.
  intros Hc Hh. rewrite !scores_computeMatches, !scores_allPairs, Hc, Hh.
  reflexivity.
Qed.

Lemma cross_length {A B C : Type} (f : A -> B -> C) (l1 : list A) (l2 : list B) :
  List.length (flat_map (fun a => map (f a) l2) l1) = List.length l1 * List.length l2.
Proof.
  induction l1 as [|a l1 IH]; simpl; [reflexivity|].
  now rewrite length_app, length_map, IH.
Qed.

Lemma allPairs_length (creators hotels : list Profile) :
  List.length (allPairs Math_log parseFloat creators hotels)
  = List.length creators * List.length hotels.
Proof. unfold allPairs. now rewrite cross_length, !length_map. Qed.

Lemma computeMatches_length (creators hotels : list Profile) :
  List.length (computeMatches Math_log parseFloat creators hotels)
  = List.length creators * List.length hotels.
Proof. unfold computeMatches. rewrite Array_sort_length. apply allPairs_length. Qed.

(** The pairs are generated creator by creator, and hotel by hotel for
    each creator. *)
Lemma allPairs_order (creators hotels : list Profile) :
  map pair_of (allPairs Math_log parseFloat creators hotels)
  = list_prod creators hotels.
Proof.
  unfold allPairs. generalize (inverseDocumentFrequency Math_log
                                 (map buildProfileText (creators ++ hotels))).
  intros idf.
  induction creators as [|c cs IH]; simpl; [reflexivity|].
  rewrite map_app, IH. f_equal. rewrite !map_map. reflexivity.
Qed.

End PairFacts.

(** ** Sets, objects and their keys *)

Lemma StrSet_has_In (s : list string) (x : string) :
  StrSet.has s x = true <-> In x s.
Proof.
  unfold StrSet.has. rewrite existsb_exists. split.
  - intros [y [Hy He]]. apply String.eqb_eq in He. now subst.
  - intros H. exists x. split; [exact H | apply String.eqb_refl].
Qed.

Lemma StrSet_add_In (s : list string) (x y : string) :
  In y (StrSet.add s x) <-> In y s \/ y = x.
Proof.
  unfold StrSet.add. destruct (StrSet.has s x) eqn:E.
  - apply StrSet_has_In in E. split; [tauto | intros [H| ->]; assumption].
  - rewrite in_app_iff. simpl. split; intros [H|H]; auto.
    + destruct H as [H|[]]; auto.
Qed.

Lemma StrSet_add_NoDup (s : list string) (x : string) :
  NoDup s -> NoDup (StrSet.add s x).
Proof.
  intros H. unfold StrSet.add. destruct (StrSet.has s x) eqn:E; [exact H|].
  apply NoDup_rev in H. rewrite <- (rev_involutive (s ++ [x])).
  apply NoDup_rev. rewrite rev_app_distr. simpl. constructor; [|exact H].
  rewrite <- in_rev. intros Hin. apply StrSet_has_In in Hin. congruence.
Qed.

Lemma fold_add_In (l s : list string) (y : string) :
  In y (fold_left StrSet.add l s) <-> In y s \/ In y l.
Proof.
  revert s. induction l as [|x l IH]; intros s; simpl; [tauto|].
  rewrite IH, StrSet_add_In. split; intros H; intuition.
Qed.

Lemma fold_add_NoDup (l s : list string) :
  NoDup s -> NoDup (fold_left StrSet.add l s).
Proof.
  revert s. induction l as [|x l IH]; intros s H; simpl; [exact H|].
  apply IH, StrSet_add_NoDup, H.
Qed.

Lemma StrSet_from_In (l : list string) (y : string) :
  In y (StrSet.from l) <-> In y l.
Proof. unfold StrSet.from. rewrite fold_add_In. simpl. tauto. Qed.

Lemma StrSet_from_NoDup (l : list string) : NoDup (StrSet.from l).
Proof. apply fold_add_NoDup. constructor. Qed.

(** The union of the keys of two vectors does not depend on their order,
    up to the order of enumeration. *)
Lemma StrSet_from_app_comm (l1 l2 : list string) :
  Permutation (StrSet.from (l1 ++ l2)) (StrSet.from (l2 ++ l1)).
Proof.
  apply NoDup_Permutation; try apply StrSet_from_NoDup.
  intros x. rewrite !StrSet_from_In, !in_app_iff. tauto.
Qed.

Lemma filter_split_perm {A : Type} (f : A -> bool) (l : list A) :
  Permutation (filter f l ++ filter (fun x => negb (f x)) l) l.
Proof.
  induction l as [|x l IH]; simpl; [constructor|].
  destruct (f x); simpl.
  - now constructor.
  - eapply perm_trans; [apply Permutation_sym, Permutation_middle|].
    now constructor.
Qed.

Lemma insert_index_perm (x : N * string) (l : list (N * string)) :
  Permutation (Obj.insert_index x l) (x :: l).
Proof.
  induction l as [|y r IH]; simpl; [apply Permutation_refl|].
  destruct (fst x <? fst y)%N; [apply Permutation_refl|].
  eapply perm_trans; [apply perm_skip, IH | apply perm_swap].
Qed.

Lemma index_keys_filter (ks : list string) :
  map snd (Obj.index_keys ks) = filter Obj.is_index ks.
Proof.
  induction ks as [|k ks IH]; simpl; [reflexivity|].
  unfold Obj.is_index at 1. destruct (Obj.array_index k); simpl; now rewrite IH.
Qed.

(** Enumeration visits every own key once. *)
Lemma enumeration_order_perm (ks : list string) :
  Permutation (Obj.enumeration_order ks) ks.
Proof.
  unfold Obj.enumeration_order.
  eapply perm_trans; [|apply (filter_split_perm Obj.is_index)].
  apply Permutation_app_tail. rewrite <- index_keys_filter.
  apply Permutation_map.
  induction (Obj.index_keys ks) as [|x l IH]; simpl; [constructor|].
  eapply perm_trans; [apply insert_index_perm | now constructor].
Qed.

Lemma keys_In {V : Type} (o : Obj.t V) (k : string) :
  In k (Obj.keys o) <-> In k (map fst o).
Proof.
  unfold Obj.keys. split; apply Permutation_in.
  - apply enumeration_order_perm.
  - apply Permutation_sym, enumeration_order_perm.
Qed.

Section ObjectFacts.

Context {V : Type}.
Implicit Types (o : Obj.t V) (k : string) (v : V).

Lemma own_In o k v : Obj.own o k = Some v -> In (k, v) o.
Proof.
  induction o as [|[k' v'] r IH]; simpl; [discriminate|].
  destruct (String.eqb k' k) eqn:E.
  - apply String.eqb_eq in E. intros [= ->]. left. now subst.
  - intros H. right. now apply IH.
Qed.

Lemma own_None o k : Obj.own o k = None <-> ~ In k (map fst o).
Proof.
  induction o as [|[k' v'] r IH]; simpl; [tauto|].
  destruct (String.eqb k' k) eqn:E.
  - apply String.eqb_eq in E. split; [discriminate | intros H; exfalso; auto].
  - apply String.eqb_neq in E. rewrite IH. tauto.
Qed.

Lemma In_own o k : In k (map fst o) -> exists v, Obj.own o k = Some v.
Proof.
  intros H. destruct (Obj.own o k) eqn:E; [eauto|].
  now apply own_None in E.
Qed.

Lemma own_set_same o k v : Obj.own (Obj.set o k v) k = Some v.
Proof.
  induction o as [|[k' v'] r IH]; simpl.
  - now rewrite String.eqb_refl.
  - destruct (String.eqb k' k) eqn:E; simpl; rewrite E; [reflexivity | exact IH].
Qed.

Lemma own_set_other o k k' v : k' <> k -> Obj.own (Obj.set o k v) k' = Obj.own o k'.
Proof.
  intros Hne. induction o as [|[k0 v0] r IH]; simpl.
  - apply not_eq_sym, String.eqb_neq in Hne. now rewrite Hne.
  - destruct (String.eqb k0 k) eqn:E; simpl.
    + apply String.eqb_eq in E. subst k0.
      apply not_eq_sym, String.eqb_neq in Hne. now rewrite Hne.
    + destruct (String.eqb k0 k'); [reflexivity | exact IH].
Qed.

Lemma set_keys_In o k k' v :
  In k' (map fst (Obj.set o k v)) <-> In k' (map fst o) \/ k' = k.
Proof.
  induction o as [|[k0 v0] r IH]; simpl.
  - intuition.
  - destruct (String.eqb k0 k) eqn:E; simpl.
    + apply String.eqb_eq in E. subst. intuition.
    + rewrite IH. tauto.
Qed.

Lemma set_Forall (P : string * V -> Prop) o k v :
  Forall P o -> P (k, v) -> Forall P (Obj.set o k v).
Proof.
  intros Ho Hv. induction o as [|[k0 v0] r IH]; simpl.
  - constructor; [exact Hv | constructor].
  - inversion Ho; subst. destruct (String.eqb k0 k) eqn:E.
    + apply String.eqb_eq in E. subst k0. constructor; assumption.
    + constructor; [assumption | now apply IH].
Qed.

End ObjectFacts.

(** ** Exact arithmetic *)

Section ExactFacts.

Import ExactReal.
Local Open Scope R_scope.
#[local] Existing Instance Exact.

Local Abbreviation xobject := (@object Exact).
Local Abbreviation vnum r := (@VNum Exact (Fin r)).

Lemma INR_pos_nonzero (c : nat) : (1 <= c)%nat -> INR c <> 0.
Proof. intros H. apply not_0_INR. lia. Qed.

Lemma xtruthy_Fin (r : R) : r <> 0 -> xtruthy (Fin r) = true.
Proof. intros H. unfold xtruthy. destruct (Req_EM_T r 0); [contradiction|reflexivity]. Qed.

Lemma xdiv_Fin (a b : R) : b <> 0 -> xdiv (Fin a) (Fin b) = Fin (a / b).
Proof. intros H. unfold xdiv. destruct (Req_EM_T b 0); [contradiction|reflexivity]. Qed.

Lemma xsqrt_Fin (a : R) : 0 <= a -> xsqrt (Fin a) = Fin (sqrt a).
Proof. intros H. unfold xsqrt. destruct (Rlt_dec a 0); [lra|reflexivity]. Qed.

Lemma xlog_Fin (a : R) : 0 < a -> xlog (Fin a) = Fin (ln a).
Proof. intros H. unfold xlog. destruct (Rlt_dec 0 a); [reflexivity|lra]. Qed.

(** *** Counters *)

Lemma increment_cell (o : xobject) (k : string) (c : nat) :
  Obj.own o k = cell k c ->
  Obj.own (increment o k) k = cell k (S c).
Proof.
  intros H. unfold increment. rewrite own_set_same.
  unfold get. rewrite H. unfold cell. destruct c as [|c]; cbv beta iota.
  - destruct (Obj.inherited k); [reflexivity|]. cbn. fin_eq. lra.
  - destruct (Obj.inherited k); [reflexivity|].
    unfold js_or. cbn [ToBoolean truthy Exact].
    rewrite xtruthy_Fin by (apply INR_pos_nonzero; lia).
    cbn [js_plus js_add Exact of_nat lift2]. fin_eq.
    rewrite (S_INR (S c)). simpl (INR 1). reflexivity.
Qed.

Lemma increment_other {J : JSNumber} (o : @object J) (k k' : string) :
  k' <> k -> Obj.own (increment o k) k' = Obj.own o k'.
Proof. intros H. unfold increment. now apply own_set_other. Qed.

Lemma fold_increment_cells (tokens : list string) :
  forall (o : xobject) (c : string -> nat),
    (forall k, Obj.own o k = cell k (c k)) ->
    forall k, Obj.own (fold_left increment tokens o) k
              = cell k (c k + occurrences tokens k).
Proof.
  induction tokens as [|t ts IH]; intros o c Hc k; simpl.
  - now rewrite Nat.add_0_r.
  - rewrite (IH (increment o t) (fun k => if string_dec t k then S (c k) else c k)).
    + unfold occurrences. simpl. destruct (string_dec t k); f_equal; lia.
    + intros k0. destruct (string_dec t k0) as [->|Hne].
      * apply increment_cell, Hc.
      * rewrite increment_other by congruence. apply Hc.
Qed.

Lemma occurrences_set (ts : list string) (k : string) :
  occurrences (StrSet.from ts) k = if StrSet.has ts k then 1%nat else 0%nat.
Proof.
  unfold occurrences. destruct (StrSet.has ts k) eqn:E.
  - apply StrSet_has_In, StrSet_from_In in E.
    apply (NoDup_count_occ' string_dec); [apply StrSet_from_NoDup | exact E].
  - apply count_occ_not_In. rewrite StrSet_from_In, <- StrSet_has_In. congruence.
Qed.

Lemma fold_documents_cells (documents : list string) :
  forall (o : xobject) (c : string -> nat),
    (forall k, Obj.own o k = cell k (c k)) ->
    forall k,
      Obj.own (fold_left (fun idf doc =>
                            fold_left increment (StrSet.from (tokenize doc)) idf)
                         documents o) k
      = cell k (c k + documentCount documents k).
Proof.
  induction documents as [|d ds IH]; intros o c Hc k; simpl.
  - unfold documentCount. simpl. now rewrite Nat.add_0_r.
  - rewrite (IH _ (fun k => (c k + occurrences (StrSet.from (tokenize d)) k)%nat)).
    + f_equal. rewrite occurrences_set. unfold documentCount. simpl.
      destruct (StrSet.has (tokenize d) k); simpl; lia.
    + intros k0. now apply fold_increment_cells.
Qed.

Lemma documentCount_le (documents : list string) (k : string) :
  (documentCount documents k <= List.length documents)%nat.
Proof. apply filter_length_le. Qed.

Lemma own_map_values {A B : Type} (g : A -> B) (o : Obj.t A) (k : string) :
  Obj.own (map (fun kv => (fst kv, g (snd kv))) o) k = option_map g (Obj.own o k).
Proof.
  induction o as [|[k0 v0] r IH]; simpl; [reflexivity|].
  destruct (String.eqb k0 k); [reflexivity | exact IH].
Qed.

(** The term frequency of a token: its share of the tokens, or [NaN] under
    a key that shadows a member of the prototype. *)
Lemma termFrequency_own (tokens : list string) (k : string) :
  Obj.own (termFrequency (J:=Exact) tokens) k
  = match occurrences tokens k with
    | O => None
    | S _ => Some (if Obj.inherited k then VNum (J:=Exact) XNaN
                   else vnum (INR (occurrences tokens k) / INR (List.length tokens)))
    end.
Proof.
  unfold termFrequency. set (total := js_or _ _).
  rewrite (own_map_values (fun v => VNum (js_div (ToNumber v) (ToNumber total)))).
  subst total.
  rewrite (fold_increment_cells tokens [] (fun _ => 0%nat)) by reflexivity.
  simpl Nat.add. unfold cell.
  destruct (occurrences tokens k) eqn:E; [reflexivity|]. cbv [option_map].
  destruct (Obj.inherited k); [reflexivity|].
  assert (Hlen : (1 <= List.length tokens)%nat).
  { destruct tokens; [discriminate E | simpl; lia]. }
  unfold js_or. cbn [ToBoolean truthy Exact of_nat].
  rewrite xtruthy_Fin by now apply INR_pos_nonzero.
  cbn [ToNumber snd js_div Exact]. rewrite xdiv_Fin by now apply INR_pos_nonzero.
  reflexivity.
Qed.

(** The inverse document frequency of a token, in exact arithmetic. *)
Lemma inverseDocumentFrequency_own (documents : list string) (k : string) :
  Obj.own (inverseDocumentFrequency (J:=Exact) xlog documents) k
  = match documentCount documents k with
    | O => None
    | S _ => Some (if Obj.inherited k then VNum (J:=Exact) XNaN
                   else vnum (ln (INR (List.length documents)
                                  / INR (documentCount documents k)) + 1))
    end.
Proof.
  unfold inverseDocumentFrequency.
  rewrite (own_map_values
             (fun v => @VNum Exact
                         (@js_add Exact
                            (xlog (@js_div Exact (of_nat (List.length documents))
                                           (ToNumber v)))
                            (of_nat 1)))).
  rewrite (fold_documents_cells documents [] (fun _ => 0%nat)) by reflexivity.
  simpl Nat.add. unfold cell.
  pose proof (documentCount_le documents k) as Hle.
  destruct (documentCount documents k) eqn:E; [reflexivity|]. cbv [option_map].
  destruct (Obj.inherited k); [reflexivity|].
  cbn [ToNumber snd js_div js_add Exact of_nat].
  rewrite xdiv_Fin by (apply INR_pos_nonzero; lia).
  rewrite xlog_Fin.
  - cbn [lift2]. fin_eq. simpl (INR 1). reflexivity.
  - apply Rdiv_lt_0_compat; apply lt_0_INR; lia.
Qed.

(** *** Vectors *)

Lemma documentCount_pos (documents : list string) (text k : string) :
  In text documents -> In k (tokenize text) ->
  (1 <= documentCount documents k)%nat.
Proof.
  intros Hd Hk. unfold documentCount.
  assert (Hin : In text (filter (fun doc => StrSet.has (tokenize doc) k) documents)).
  { apply filter_In. split; [exact Hd | now apply StrSet_has_In]. }
  destruct (filter _ documents); [destruct Hin | simpl; lia].
Qed.

Lemma termFrequency_keys (tokens : list string) (k : string) :
  In k (map fst (termFrequency (J:=Exact) tokens)) -> In k tokens.
Proof.
  intros H. apply In_own in H. destruct H as [v Hv].
  rewrite termFrequency_own in Hv.
  destruct (occurrences tokens k) eqn:E; [discriminate|].
  apply (count_occ_In string_dec). unfold occurrences in E. lia.
Qed.

Lemma ln_ratio_nonneg (n d : nat) : (1 <= d <= n)%nat -> 0 <= ln (INR n / INR d).
Proof.
  intros H.
  assert (Hd : 0 < INR d) by (apply lt_0_INR; lia).
  assert (Hq : 1 <= INR n / INR d).
  { apply Rmult_le_reg_r with (INR d); [assumption|].
    unfold Rdiv. rewrite Rmult_assoc, Rinv_l, Rmult_1_r, Rmult_1_l by lra.
    apply le_INR. lia. }
  destruct Hq as [Hq|Hq].
  - rewrite <- ln_1. apply Rlt_le, ln_increasing; lra.
  - rewrite <- Hq, ln_1. lra.
Qed.

(** Every vector [computeMatches] builds is plain, and its keys are tokens of
    the text it was built from. *)
Lemma tfidfVector_plain (documents : list string) (text : string) :
  In text documents ->
  let v := tfidfVector (J:=Exact) text (inverseDocumentFrequency (J:=Exact) xlog documents) in
  plain_vector v /\ (forall k, In k (map fst v) -> In k (tokenize text)).
Proof.
  intros Hd. unfold tfidfVector.
  set (idf := inverseDocumentFrequency (J:=Exact) xlog documents).
  set (tf := termFrequency (tokenize text)).
  assert (Hks : forall k, In k (Obj.keys tf) -> In k (tokenize text)).
  { intros k Hk. apply termFrequency_keys. now apply keys_In. }
  revert Hks. generalize (Obj.keys tf). intros ks.
  assert (Hinit : plain_vector [] /\ (forall k, In k (map fst (@nil (string * @jsval Exact))) -> In k (tokenize text))).
  { split; [constructor | intros k []]. }
  revert Hinit. generalize (@nil (string * @jsval Exact)).
  induction ks as [|w ks IH]; intros vec [Hp Hk] Hks; simpl; [now split|].
  apply IH; [|intros k Hin; apply Hks; now right].
  assert (Hw : In w (tokenize text)) by (apply Hks; now left).
  pose proof (documentCount_pos documents text w Hd Hw) as Hpos.
  pose proof (documentCount_le documents w) as Hle.
  assert (Hget : get idf w
                 = if Obj.inherited w then VNum (J:=Exact) XNaN
                   else vnum (ln (INR (List.length documents)
                                  / INR (documentCount documents w)) + 1)).
  { unfold get. subst idf. rewrite inverseDocumentFrequency_own.
    destruct (documentCount documents w); [lia | reflexivity]. }
  rewrite !Hget. clear Hget.
  pose proof (ln_ratio_nonneg (List.length documents) (documentCount documents w)
                ltac:(lia)) as Hln.
  destruct (Obj.inherited w) eqn:Ei.
  - cbn [ToBoolean truthy Exact xtruthy]. now split.
  - cbn [ToBoolean truthy Exact]. rewrite !xtruthy_Fin by lra.
    split.
    + apply set_Forall; [exact Hp|]. split; [exact Ei|].
      unfold get. subst tf. rewrite termFrequency_own.
      assert (Ho : (1 <= occurrences (tokenize text) w)%nat).
      { unfold occurrences. now apply count_occ_In. }
      destruct (occurrences (tokenize text) w) as [|c] eqn:Ec; [lia|].
      rewrite Ei. cbn [ToNumber js_mul Exact lift2 snd].
      eexists. split; [reflexivity|].
      apply Rmult_le_pos; [|lra].
      apply Rlt_le, Rdiv_lt_0_compat; apply lt_0_INR; try lia.
      destruct (tokenize text); [destruct Hw | simpl; lia].
    + intros k Hin. apply set_keys_In in Hin. destruct Hin as [Hin| ->]; auto.
Qed.

(** *** Cosine similarity of plain vectors *)

Lemma cosineSimilarity_unfold {J : JSNumber} (a b : @object J) :
  cosineSimilarity a b
  = let '(dot, magA, magB) :=
      fold_left (cosine_step a b) (allKeys a b) (of_nat 0, of_nat 0, of_nat 0) in
    let magnitude := js_mul (Math_sqrt magA) (Math_sqrt magB) in
    if strict_eq magnitude (of_nat 0) then of_nat 0 else js_div dot magnitude.
Proof. reflexivity. Qed.

Lemma value_or0_plain (a : xobject) (k : string) :
  plain_vector a -> Obj.inherited k = false ->
  value_or0 a k = Fin (entry a k) /\ 0 <= entry a k.
Proof.
  intros Ha Hk. unfold value_or0, entry, get.
  destruct (Obj.own a k) as [v|] eqn:E.
  - apply own_In in E. unfold plain_vector in Ha. rewrite Forall_forall in Ha.
    destruct (Ha _ E) as [_ [r [Hv Hr]]]. simpl in Hv. subst v.
    unfold js_or. cbn [ToBoolean truthy Exact xtruthy].
    destruct (Req_EM_T r 0) as [->|Hne]; split; try reflexivity; lra.
  - rewrite Hk. split; [reflexivity | lra].
Qed.

Lemma allKeys_plain (a b : xobject) (k : string) :
  plain_vector a -> plain_vector b -> In k (allKeys a b) -> Obj.inherited k = false.
Proof.
  intros Ha Hb Hk. unfold allKeys in Hk.
  apply StrSet_from_In, in_app_or in Hk.
  unfold plain_vector in *. rewrite Forall_forall in Ha, Hb.
  destruct Hk as [Hk|Hk]; apply keys_In, in_map_iff in Hk;
    destruct Hk as [[k0 v] [<- Hin]]; [apply (Ha _ Hin) | apply (Hb _ Hin)].
Qed.

Lemma cosine_fold_values (a b : xobject) (ks : list string) :
  (forall k, In k ks -> value_or0 a k = Fin (entry a k)) ->
  (forall k, In k ks -> value_or0 b k = Fin (entry b k)) ->
  forall d ma mb,
    fold_left (cosine_step a b) ks (Fin d, Fin ma, Fin mb)
    = (Fin (d + sum_over ks (fun k => entry a k * entry b k)),
       Fin (ma + sum_over ks (fun k => entry a k * entry a k)),
       Fin (mb + sum_over ks (fun k => entry b k * entry b k))).
Proof.
  induction ks as [|k ks IH]; intros Ha Hb d ma mb; simpl.
  - now rewrite !Rplus_0_r.
  - rewrite (Ha k (or_introl eq_refl)), (Hb k (or_introl eq_refl)).
    cbn [js_add js_mul Exact lift2].
    rewrite IH by (intros k0 Hk0; (apply Ha || apply Hb); now right).
    f_equal; [f_equal|]; apply f_equal; ring.
Qed.

Lemma cosine_fold_plain (a b : xobject) (ks : list string) :
  plain_vector a -> plain_vector b ->
  (forall k, In k ks -> Obj.inherited k = false) ->
  forall d ma mb,
    fold_left (cosine_step a b) ks (Fin d, Fin ma, Fin mb)
    = (Fin (d + sum_over ks (fun k => entry a k * entry b k)),
       Fin (ma + sum_over ks (fun k => entry a k * entry a k)),
       Fin (mb + sum_over ks (fun k => entry b k * entry b k))).
Proof.
  intros Ha Hb Hks. apply cosine_fold_values; intros k Hk.
  - now apply value_or0_plain; [|apply Hks].
  - now apply value_or0_plain; [|apply Hks].
Qed.

Lemma sum_over_nonneg (ks : list string) (f : string -> R) :
  (forall k, In k ks -> 0 <= f k) -> 0 <= sum_over ks f.
Proof.
  induction ks as [|k ks IH]; intros H; simpl; [lra|].
  pose proof (H k (or_introl eq_refl)) as Hk.
  assert (Hr : 0 <= sum_over ks f) by (apply IH; intros k0 Hk0; apply H; now right).
  lra.
Qed.

Lemma sum_over_zero (ks : list string) (f : string -> R) :
  (forall k, In k ks -> f k = 0) -> sum_over ks f = 0.
Proof.
  induction ks as [|k ks IH]; intros H; simpl; [reflexivity|].
  rewrite (H k (or_introl eq_refl)), IH; [lra|].
  intros k0 H0. apply H. now right.
Qed.

Lemma sum_squares_nonneg (ks : list string) (f : string -> R) :
  0 <= sum_over ks (fun k => f k * f k).
Proof. apply sum_over_nonneg. intros k _. nra. Qed.

(** The Cauchy-Schwarz inequality over a list of keys. *)
Lemma sum_over_cauchy_schwarz (ks : list string) (f g : string -> R) :
  sum_over ks (fun k => f k * g k) * sum_over ks (fun k => f k * g k)
  <= sum_over ks (fun k => f k * f k) * sum_over ks (fun k => g k * g k).
Proof.
  induction ks as [|k ks IH]; simpl; [lra|].
  pose proof (sum_squares_nonneg ks f) as HA.
  pose proof (sum_squares_nonneg ks g) as HB.
  set (S := sum_over ks (fun k => f k * g k)) in *.
  set (A := sum_over ks (fun k => f k * f k)) in *.
  set (B := sum_over ks (fun k => g k * g k)) in *.
  set (x := f k). set (y := g k). clearbody S A B x y.
  assert (Hmix : 2 * x * y * S <= x * x * B + y * y * A).
  { destruct (Req_dec B 0) as [HB0|HB0].
    - assert (HS : S = 0) by nra. rewrite HS, HB0. nra.
    - assert (HBpos : 0 < B) by lra.
      apply Rmult_le_reg_l with B; [exact HBpos|].
      assert (0 <= (x * B - y * S) * (x * B - y * S)) by apply Rle_0_sqr.
      assert (0 <= y * y * (A * B - S * S)) by (apply Rmult_le_pos; nra).
      nra. }
  nra.
Qed.

(** The value of [cosineSimilarity] on plain vectors. *)
Lemma cosineSimilarity_plain (a b : xobject) :
  plain_vector a -> plain_vector b ->
  let ks := allKeys a b in
  cosineSimilarity a b
  = if Req_EM_T (sqrt (norm_sq ks a) * sqrt (norm_sq ks b)) 0
    then Fin 0
    else Fin (dot ks a b / (sqrt (norm_sq ks a) * sqrt (norm_sq ks b))).
Proof.
  intros Ha Hb ks. rewrite cosineSimilarity_unfold. fold ks.
  change (@of_nat Exact 0) with (Fin 0).
  rewrite (cosine_fold_plain a b ks Ha Hb)
    by (intros k Hk; now apply (allKeys_plain a b)).
  rewrite !Rplus_0_l. fold (dot ks a b) (norm_sq ks a) (norm_sq ks b).
  cbn [Math_sqrt js_mul js_div strict_eq Exact].
  rewrite !xsqrt_Fin by apply sum_squares_nonneg.
  cbn [lift2 xeq].
  destruct (Req_EM_T (sqrt (norm_sq ks a) * sqrt (norm_sq ks b)) 0) as [E|E].
  - reflexivity.
  - now rewrite xdiv_Fin.
Qed.

(** On plain vectors the similarity is a number between 0 and 1. *)
Lemma cosineSimilarity_range (a b : xobject) :
  plain_vector a -> plain_vector b ->
  exists r, cosineSimilarity a b = Fin r /\ 0 <= r <= 1.
Proof.
  intros Ha Hb. rewrite (cosineSimilarity_plain a b Ha Hb).
  set (ks := allKeys a b).
  pose proof (sum_squares_nonneg ks (entry a)) as HA. fold (norm_sq ks a) in HA.
  pose proof (sum_squares_nonneg ks (entry b)) as HB. fold (norm_sq ks b) in HB.
  destruct (Req_EM_T _ 0) as [E|E]; [exists 0; split; [reflexivity|lra]|].
  eexists. split; [reflexivity|].
  assert (HD : 0 <= dot ks a b).
  { apply sum_over_nonneg. intros k Hk.
    pose proof (allKeys_plain a b k Ha Hb Hk) as Hi.
    destruct (value_or0_plain a k Ha Hi) as [_ H1].
    destruct (value_or0_plain b k Hb Hi) as [_ H2].
    now apply Rmult_le_pos. }
  assert (Hm : 0 < sqrt (norm_sq ks a) * sqrt (norm_sq ks b)).
  { pose proof (sqrt_pos (norm_sq ks a)). pose proof (sqrt_pos (norm_sq ks b)).
    assert (0 <= sqrt (norm_sq ks a) * sqrt (norm_sq ks b)) by now apply Rmult_le_pos.
    lra. }
  split.
  - unfold Rdiv. apply Rmult_le_pos; [assumption|].
    now apply Rlt_le, Rinv_0_lt_compat.
  - apply Rmult_le_reg_r with (sqrt (norm_sq ks a) * sqrt (norm_sq ks b)); [exact Hm|].
    unfold Rdiv. rewrite Rmult_assoc, Rinv_l, Rmult_1_r, Rmult_1_l by lra.
    rewrite <- sqrt_mult by assumption.
    rewrite <- (sqrt_square (dot ks a b)) by assumption.
    apply sqrt_le_1; [nra | now apply Rmult_le_pos |].
    apply sum_over_cauchy_schwarz.
Qed.

(** *** Tag overlap and the displayed score *)

Lemma INR_lit (n : nat) : INR n = IZR (Z.of_nat n).
Proof. apply INR_IZR_INZ. Qed.

Lemma overlap_fold (setB : list string) (setA : list string) (c : nat) :
  fold_left (fun overlap tag =>
               if StrSet.has setB tag then @js_add Exact overlap (of_nat 1) else overlap)
            setA (Fin (INR c))
  = Fin (INR (c + List.length (filter (StrSet.has setB) setA))).
Proof.
  revert c. induction setA as [|x r IH]; intros c; cbn [fold_left filter].
  - now rewrite Nat.add_0_r.
  - destruct (StrSet.has setB x).
    + replace (@js_add Exact (Fin (INR c)) (of_nat 1)) with (Fin (INR (S c)))
        by (cbn [js_add Exact of_nat lift2]; rewrite S_INR; simpl (INR 1); reflexivity).
      rewrite IH. cbn [List.length]. do 2 f_equal. lia.
    + apply IH.
Qed.

(** The Jaccard index of the two tag sets, in exact arithmetic. *)
Lemma tagOverlapScore_value (tagsA tagsB : list string) :
  tagOverlapScore (J:=Exact) tagsA tagsB
  = match List.length (unionTags tagsA tagsB) with
    | O => Fin 0
    | S _ => Fin (INR (List.length (sharedTags tagsA tagsB))
                  / INR (List.length (unionTags tagsA tagsB)))
    end.
Proof.
  unfold tagOverlapScore. fold (tagSet tagsA) (tagSet tagsB).
  pose proof (overlap_fold (tagSet tagsB) (tagSet tagsA) 0) as Hov.
  change (Fin (INR 0)) with (@of_nat Exact 0) in Hov. rewrite Hov. clear Hov.
  cbn [Nat.add].
  fold (sharedTags tagsA tagsB) (unionTags tagsA tagsB).
  destruct (List.length (unionTags tagsA tagsB)) as [|u] eqn:E.
  - cbn. destruct (Req_EM_T 0 0); [reflexivity | lra].
  - cbn [strict_eq Exact of_nat xeq].
    destruct (Req_EM_T (INR (S u)) (INR 0)) as [H|H].
    + apply INR_eq in H. discriminate.
    + cbn [js_div Exact]. apply xdiv_Fin. apply INR_pos_nonzero. lia.
Qed.

Lemma sharedTags_le_unionTags (tagsA tagsB : list string) :
  (List.length (sharedTags tagsA tagsB) <= List.length (unionTags tagsA tagsB))%nat.
Proof.
  apply NoDup_incl_length.
  - apply NoDup_filter, StrSet_from_NoDup.
  - intros x Hx. apply filter_In in Hx. apply StrSet_from_In, in_or_app. tauto.
Qed.

Lemma tagOverlapScore_range (tagsA tagsB : list string) :
  exists g, tagOverlapScore (J:=Exact) tagsA tagsB = Fin g /\ 0 <= g <= 1.
Proof.
  rewrite tagOverlapScore_value.
  pose proof (sharedTags_le_unionTags tagsA tagsB) as Hle.
  destruct (List.length (unionTags tagsA tagsB)) as [|u]; [exists 0; split; [reflexivity|lra]|].
  eexists. split; [reflexivity|].
  assert (Hu : 0 < INR (S u)) by (apply lt_0_INR; lia).
  pose proof (pos_INR (List.length (sharedTags tagsA tagsB))) as Hs.
  apply le_INR in Hle. split.
  - unfold Rdiv. apply Rmult_le_pos; [assumption|]. now apply Rlt_le, Rinv_0_lt_compat.
  - apply Rmult_le_reg_r with (INR (S u)); [assumption|].
    unfold Rdiv. rewrite Rmult_assoc, Rinv_l, Rmult_1_r, Rmult_1_l by lra. assumption.
Qed.

Lemma round_half_up_ge (z : Z) (r : R) : IZR z <= r -> (z <= round_half_up r)%Z.
Proof.
  intros H. unfold round_half_up.
  destruct (base_Int_part (r + / 2)) as [_ Hlo].
  assert (Hlt : IZR (z - 1) < IZR (Int_part (r + / 2))) by (rewrite minus_IZR; lra).
  apply lt_IZR in Hlt. lia.
Qed.

Lemma round_half_up_le (z : Z) (r : R) : r <= IZR z -> (round_half_up r <= z)%Z.
Proof.
  intros H. unfold round_half_up.
  destruct (base_Int_part (r + / 2)) as [Hhi _].
  assert (Hlt : IZR (Int_part (r + / 2)) < IZR (z + 1)) by (rewrite plus_IZR; lra).
  apply lt_IZR in Hlt. lia.
Qed.

Lemma round_half_up_IZR (z : Z) : round_half_up (IZR z) = z.
Proof.
  pose proof (round_half_up_ge z (IZR z) ltac:(lra)).
  pose proof (round_half_up_le z (IZR z) ltac:(lra)). lia.
Qed.

Lemma Rmin_IZR (a b : Z) : Rmin (IZR a) (IZR b) = IZR (Z.min a b).
Proof.
  destruct (Z.le_ge_cases a b) as [H|H].
  - rewrite Z.min_l by assumption. apply Rmin_left. now apply IZR_le.
  - rewrite Z.min_r by lia. apply Rmin_right. apply IZR_le. lia.
Qed.

(** The three scores of a pair, given its exact similarity and tag score. *)
Lemma matchPair_scores (pf : string -> xreal) (cv hv : Profile * xobject) (t g : R) :
  cosineSimilarity (snd cv) (snd hv) = Fin t ->
  tagOverlapScore (J:=Exact) (or_nil (tags (fst cv))) (or_nil (tags (fst hv))) = Fin g ->
  scores (matchPair pf cv hv)
  = (Fin (IZR (display t g)), Fin (IZR (percent t)), Fin (IZR (percent g))).
Proof.
  intros Ht Hg. unfold scores, matchPair. cbn [score textSimilarity tagOverlap].
  rewrite Ht, Hg. cbn [js_add js_mul Math_round Math_min Exact lift2 xround of_nat lit_0_6 lit_0_4].
  rewrite !INR_lit. simpl Z.of_nat. rewrite Rmin_IZR. reflexivity.
Qed.

Lemma display_range (t g : R) : 0 <= t -> 0 <= g -> (50 <= display t g <= 99)%Z.
Proof.
  intros Ht Hg. unfold display. split; [|apply Z.le_min_r].
  apply Z.min_glb; [|lia]. apply round_half_up_ge. nra.
Qed.

(** *** Sorting by score *)

Lemma compare_gt (x y : @Match Exact) :
  js_gt (compareMatches x y) (of_nat 0) = true ->
  exists a b, score x = Fin a /\ score y = Fin b /\ a < b.
Proof.
  unfold compareMatches. cbn [js_gt js_sub Exact of_nat].
  destruct (score x) as [|a], (score y) as [|b]; cbn [lift2 xgt]; try discriminate.
  destruct (Rlt_dec (INR 0) (b - a)) as [H|H]; [|discriminate].
  intros _. exists a, b. simpl in H. repeat split. lra.
Qed.

Lemma compare_not_gt (x y : @Match Exact) (a b : R) :
  score x = Fin a -> score y = Fin b ->
  js_gt (compareMatches x y) (of_nat 0) = false -> b <= a.
Proof.
  intros Hx Hy. unfold compareMatches. rewrite Hx, Hy.
  cbn [js_gt js_sub Exact of_nat lift2 xgt].
  destruct (Rlt_dec (INR 0) (b - a)) as [H|H]; [discriminate|].
  intros _. simpl in H. lra.
Qed.

Lemma sort_insert_HdRel (x y : @Match Exact) (l : list (@Match Exact)) :
  score_ge y x -> HdRel score_ge y l -> HdRel score_ge y (sort_insert compareMatches x l).
Proof.
  intros Hyx Hl. destruct l as [|z r]; cbn [sort_insert].
  - now constructor.
  - destruct (js_gt (compareMatches x z) (of_nat 0)); constructor; auto.
    now inversion Hl.
Qed.

Lemma sort_insert_sorted (x : @Match Exact) (l : list (@Match Exact)) :
  (exists a, score x = Fin a) ->
  Forall (fun m => exists a, score m = Fin a) l ->
  Sorted score_ge l -> Sorted score_ge (sort_insert compareMatches x l).
Proof.
  intros [a Ha] Hfin Hs. induction l as [|y r IH]; cbn [sort_insert].
  - repeat constructor.
  - inversion Hfin as [|? ? [b Hb] Hr]; subst. inversion Hs as [|? ? Hsr Hhd]; subst.
    destruct (js_gt (compareMatches x y) (of_nat 0)) eqn:E.
    + constructor; [now apply IH|].
      apply sort_insert_HdRel; [|exact Hhd].
      destruct (compare_gt x y E) as [a' [b' [Ha' [Hb' Hlt]]]].
      exists b', a'. repeat split; try assumption. lra.
    + constructor; [exact Hs|]. constructor.
      exists a, b. repeat split; try assumption.
      now apply (compare_not_gt x y).
Qed.

Lemma Array_sort_sorted (l : list (@Match Exact)) :
  Forall (fun m => exists a, score m = Fin a) l ->
  Sorted score_ge (Array_sort compareMatches l).
Proof.
  induction l as [|x r IH]; intros H; cbn [Array_sort fold_right]; [constructor|].
  fold (Array_sort compareMatches r).
  inversion H; subst. apply sort_insert_sorted; auto.
  now apply Array_sort_Forall.
Qed.


Lemma Exact_ties_respected : ties_respected Exact.
Proof.
  intros x y s. cbn [js_gt js_sub strict_eq Exact of_nat].
  destruct x as [|a], y as [|b], s as [|c]; cbn [lift2 xgt xeq]; try discriminate;
    try reflexivity.
  destruct (Rlt_dec (INR 0) (b - a)) as [H|H]; [|discriminate]. simpl in H.
  destruct (Req_EM_T a c), (Req_EM_T b c); try discriminate; try reflexivity. lra.
Qed.

(** *** Every pair of [computeMatches] *)

Lemma allPairs_exact_scores (pf : string -> xreal) (cs hs : list Profile) :
  Forall (exact_scores (inverseDocumentFrequency (J:=Exact) xlog
                          (map buildProfileText (cs ++ hs))))
         (allPairs (J:=Exact) xlog pf cs hs).
Proof.
  unfold allPairs. set (docs := map buildProfileText (cs ++ hs)).
  apply Forall_forall. intros m Hm.
  apply in_flat_map in Hm. destruct Hm as [cv [Hcv Hm]].
  apply in_map_iff in Hm. destruct Hm as [hv [<- Hhv]].
  apply in_map_iff in Hcv. destruct Hcv as [c [<- Hc]].
  apply in_map_iff in Hhv. destruct Hhv as [h [<- Hh]].
  assert (Hdc : In (buildProfileText c) docs)
    by (apply in_map, in_or_app; now left).
  assert (Hdh : In (buildProfileText h) docs)
    by (apply in_map, in_or_app; now right).
  destruct (tfidfVector_plain docs _ Hdc) as [Hpc _].
  destruct (tfidfVector_plain docs _ Hdh) as [Hph _].
  destruct (cosineSimilarity_range _ _ Hpc Hph) as [t [Ht Htr]].
  destruct (tagOverlapScore_range (or_nil (tags c)) (or_nil (tags h))) as [g [Hg Hgr]].
  exists t, g. split; [exact Ht|]. split; [exact Hg|].
  repeat split; try lra.
  now apply matchPair_scores.
Qed.

Lemma exact_scores_fin (idf : xobject) (m : @Match Exact) :
  exact_scores idf m -> exists z, score m = Fin (IZR z) /\ (50 <= z <= 99)%Z.
Proof.
  intros (t & g & _ & _ & Ht & Hg & Hs). exists (display t g).
  unfold scores in Hs. injection Hs as Hs _ _. split; [exact Hs|].
  apply display_range; lra.
Qed.

(** *** A vector against itself, and symmetry *)

Lemma value_or0_own (v : xobject) (k : string) :
  numeric_vector v -> In k (map fst v) -> value_or0 v k = Fin (entry v k).
Proof.
  intros Hv Hk. unfold value_or0, entry, get.
  destruct (In_own v k Hk) as [x Hx]. rewrite Hx.
  apply own_In in Hx. unfold numeric_vector in Hv. rewrite Forall_forall in Hv.
  destruct (Hv _ Hx) as [r Hr]. simpl in Hr. subst x.
  unfold js_or. cbn [ToBoolean truthy Exact xtruthy].
  destruct (Req_EM_T r 0) as [->|Hne]; reflexivity.
Qed.

Lemma allKeys_self (v : xobject) (k : string) :
  In k (allKeys v v) <-> In k (map fst v).
Proof.
  unfold allKeys. rewrite StrSet_from_In, in_app_iff, keys_In. tauto.
Qed.

Lemma sum_over_pos (ks : list string) (f : string -> R) (k : string) :
  In k ks -> f k <> 0 -> 0 < sum_over ks (fun k => f k * f k).
Proof.
  induction ks as [|k0 ks IH]; intros Hin Hne; [destruct Hin|]. simpl.
  pose proof (sum_squares_nonneg ks f) as Hs.
  destruct Hin as [->|Hin].
  - assert (0 < f k * f k) by nra. lra.
  - specialize (IH Hin Hne). nra.
Qed.

Lemma entry_nonzero_key (v : xobject) (k : string) :
  entry v k <> 0 -> In k (map fst v).
Proof.
  unfold entry. intros H. destruct (Obj.own v k) eqn:E.
  - apply own_In in E. apply in_map_iff. now exists (k, j).
  - now contradiction H.
Qed.

Lemma cosineSimilarity_self (v : xobject) (k : string) :
  numeric_vector v -> entry v k <> 0 -> cosineSimilarity v v = Fin 1.
Proof.
  intros Hv Hk. rewrite cosineSimilarity_unfold.
  change (@of_nat Exact 0) with (Fin 0).
  rewrite cosine_fold_values
    by (intros k0 Hk0; apply value_or0_own; [exact Hv | now apply allKeys_self]).
  rewrite !Rplus_0_l. set (S := sum_over (allKeys v v) _).
  assert (HS : 0 < S).
  { apply (sum_over_pos _ (entry v) k); [|exact Hk].
    apply allKeys_self. now apply entry_nonzero_key. }
  cbn [Math_sqrt js_mul js_div strict_eq Exact].
  rewrite !xsqrt_Fin by lra. cbn [lift2 xeq].
  rewrite sqrt_sqrt by lra.
  destruct (Req_EM_T S 0) as [E|E]; [lra|].
  rewrite xdiv_Fin by exact E. f_equal. now field.
Qed.

Lemma fold_left_perm {A B : Type} (f : A -> B -> A) (l l' : list B) :
  (forall acc x y, f (f acc x) y = f (f acc y) x) ->
  Permutation l l' -> forall acc, fold_left f l acc = fold_left f l' acc.
Proof.
  intros Hf Hp. induction Hp; intros acc; simpl.
  - reflexivity.
  - apply IHHp.
  - now rewrite Hf.
  - now rewrite IHHp1.
Qed.

Lemma lift2_Rplus_swap (d p q : xreal) :
  lift2 Rplus (lift2 Rplus d p) q = lift2 Rplus (lift2 Rplus d q) p.
Proof. destruct d, p, q; cbn; try reflexivity. f_equal. ring. Qed.

Lemma lift2_Rmult_comm (x y : xreal) : lift2 Rmult x y = lift2 Rmult y x.
Proof. destruct x, y; cbn; try reflexivity. f_equal. ring. Qed.

Lemma cosine_step_comm (a b : xobject) (acc : xreal * xreal * xreal) (x y : string) :
  cosine_step a b (cosine_step a b acc x) y = cosine_step a b (cosine_step a b acc y) x.
Proof.
  destruct acc as [[d ma] mb]. unfold cosine_step. cbn [js_add js_mul Exact].
  f_equal; [f_equal|]; apply lift2_Rplus_swap.
Qed.

Lemma cosine_fold_swap (a b : xobject) (ks : list string) :
  forall d ma mb,
    fold_left (cosine_step b a) ks (d, mb, ma)
    = (let '(d', ma', mb') := fold_left (cosine_step a b) ks (d, ma, mb) in
       (d', mb', ma')).
Proof.
  induction ks as [|k ks IH]; intros d ma mb; [reflexivity|].
  cbn [fold_left]. unfold cosine_step at 2 4. rewrite <- IH.
  unfold cosine_step at 2. cbn [js_mul Exact].
  now rewrite (lift2_Rmult_comm (value_or0 b k) (value_or0 a k)).
Qed.

Lemma cosineSimilarity_sym (a b : xobject) :
  cosineSimilarity a b = cosineSimilarity b a.
Proof.
  rewrite !cosineSimilarity_unfold.
  rewrite (fold_left_perm (cosine_step b a) (allKeys b a) (allKeys a b))
    by (apply cosine_step_comm || apply StrSet_from_app_comm).
  rewrite (cosine_fold_swap a b).
  destruct (fold_left (cosine_step a b) (allKeys a b) (of_nat 0, of_nat 0, of_nat 0))
    as [[d ma] mb].
  cbn [js_mul Exact]. now rewrite (lift2_Rmult_comm (Math_sqrt mb) (Math_sqrt ma)).
Qed.

(** *** Vectors with no common key *)

Lemma disjointb_spec (l1 l2 : list string) :
  disjointb l1 l2 = true <-> (forall x, In x l1 -> ~ In x l2).
Proof.
  unfold disjointb. rewrite forallb_forall. split; intros H x Hx.
  - specialize (H x Hx). apply negb_true_iff in H.
    intros Hin. apply StrSet_has_In in Hin. congruence.
  - apply negb_true_iff. destruct (StrSet.has l2 x) eqn:E; [|reflexivity].
    apply StrSet_has_In in E. now elim (H x Hx).
Qed.

Lemma cosineSimilarity_orthogonal (a b : xobject) :
  plain_vector a -> plain_vector b ->
  (forall k, entry a k = 0 \/ entry b k = 0) ->
  cosineSimilarity a b = Fin 0.
Proof.
  intros Ha Hb H. rewrite (cosineSimilarity_plain a b Ha Hb).
  destruct (Req_EM_T _ 0); [reflexivity|]. f_equal.
  unfold dot. rewrite sum_over_zero; [unfold Rdiv; ring|].
  intros k _. destruct (H k) as [E|E]; rewrite E; ring.
Qed.

Lemma display_zero : display 0 0 = 50%Z.
Proof.
  unfold display.
  replace ((0 * (6 / 10) + 0 * (4 / 10)) * 100 + 50) with (IZR 50) by lra.
  now rewrite round_half_up_IZR.
Qed.

Lemma percent_zero : percent 0 = 0%Z.
Proof.
  unfold percent. replace (0 * 100) with (IZR 0) by lra.
  apply round_half_up_IZR.
Qed.

Lemma computeMatches_single {J : JSNumber} (lg : num -> num) (pf : string -> num)
      (a b : Profile) :
  computeMatches lg pf [a] [b]
  = [ matchPair pf
        (a, tfidfVector (buildProfileText a)
              (inverseDocumentFrequency lg (map buildProfileText ([a] ++ [b]))))
        (b, tfidfVector (buildProfileText b)
              (inverseDocumentFrequency lg (map buildProfileText ([a] ++ [b])))) ].
Proof. reflexivity. Qed.

Lemma disjoint_profiles_scores (pf : string -> xreal) (a b : Profile) :
  disjointb (tokenize (buildProfileText a)) (tokenize (buildProfileText b)) = true ->
  disjointb (tagSet (or_nil (tags a))) (tagSet (or_nil (tags b))) = true ->
  map scores (computeMatches (J:=Exact) xlog pf [a] [b]) = [(Fin 50, Fin 0, Fin 0)].
Proof.
  intros Htext Htags. rewrite computeMatches_single. cbn [map].
  set (docs := map buildProfileText ([a] ++ [b])).
  assert (Hda : In (buildProfileText a) docs) by (simpl; auto).
  assert (Hdb : In (buildProfileText b) docs) by (simpl; auto).
  destruct (tfidfVector_plain docs _ Hda) as [Hpa Hka].
  destruct (tfidfVector_plain docs _ Hdb) as [Hpb Hkb].
  set (va := tfidfVector (buildProfileText a) _) in *.
  set (vb := tfidfVector (buildProfileText b) _) in *.
  rewrite (matchPair_scores pf _ _ 0 0).
  - now rewrite display_zero, percent_zero.
  - cbn [snd]. apply cosineSimilarity_orthogonal; try assumption.
    intros k. destruct (Req_dec (entry va k) 0) as [E|E]; [now left | right].
    apply entry_nonzero_key, Hka in E.
    destruct (Req_dec (entry vb k) 0) as [E'|E']; [assumption|].
    apply entry_nonzero_key, Hkb in E'.
    rewrite disjointb_spec in Htext. now elim (Htext k E).
  - cbn [fst]. rewrite tagOverlapScore_value.
    assert (Hs : sharedTags (or_nil (tags a)) (or_nil (tags b)) = []).
    { unfold sharedTags. rewrite disjointb_spec in Htags.
      destruct (filter _ _) as [|x r] eqn:E; [reflexivity|].
      assert (Hx : In x (x :: r)) by now left.
      rewrite <- E in Hx. apply filter_In in Hx. destruct Hx as [H1 H2].
      apply StrSet_has_In in H2. now elim (Htags x H1). }
    rewrite Hs. cbn [List.length].
    destruct (List.length _); [reflexivity|]. f_equal. unfold Rdiv. simpl (INR 0). ring.
Qed.

End ExactFacts.

(** ** Binary64 evaluations *)

(** Two binary64 numbers that are equal to a third are two zeros, the same
    infinity or the same finite number. *)
Lemma SFeqb_cases (X S : SpecFloat.spec_float) :
  SpecFloat.SFeqb X S = true ->
  (exists a b, X = SpecFloat.S754_zero a /\ S = SpecFloat.S754_zero b) \/
  (exists a, X = SpecFloat.S754_infinity a /\ S = SpecFloat.S754_infinity a) \/
  (exists s m e, X = SpecFloat.S754_finite s m e /\ S = SpecFloat.S754_finite s m e).
Proof.
  unfold SpecFloat.SFeqb, SpecFloat.SFcompare.
  destruct X as [a| a | |a m e], S as [b|b| |b m' e']; try discriminate;
    try (destruct a; discriminate); try (destruct b; discriminate).
  - intros _. left. eauto.
  - destruct a, b; try discriminate; intros _; right; left; eauto.
  - destruct a, b; try discriminate;
      destruct (Z.compare e e') eqn:He; try discriminate;
      destruct (Pos.compare_cont Eq m m') eqn:Hm; try discriminate;
      intros _; apply Z.compare_eq in He; apply Pos.compare_eq in Hm; subst;
      right; right; eauto.
Qed.

(** Their difference is a zero or [NaN], never positive. *)
Lemma SFsub_tie (X Y S : SpecFloat.spec_float) :
  SpecFloat.SFeqb X S = true -> SpecFloat.SFeqb Y S = true ->
  SpecFloat.SFltb (SpecFloat.S754_zero false)
                  (SpecFloat.SFsub FloatOps.prec FloatOps.emax Y X) = false.
Proof.
  intros HX HY.
  destruct (SFeqb_cases _ _ HX)
    as [(a & b & -> & ->)|[(a & -> & ->)|(s & m & e & -> & ->)]];
    destruct (SFeqb_cases _ _ HY)
      as [(a' & b' & -> & E)|[(a' & -> & E)|(s' & m' & e' & -> & E)]];
    try discriminate E.
  - destruct a, a'; reflexivity.
  - injection E as <-. destruct a; reflexivity.
  - injection E as <- <- <-. unfold SpecFloat.SFsub.
    rewrite Z.min_id. unfold SpecFloat.shl_align. rewrite ?Z.sub_diag.
    reflexivity.
Qed.

Lemma F64_ties_respected : ties_respected F64.
Proof.
  intros x y s. cbn [js_gt js_sub strict_eq F64 of_nat].
  change (Binary64.of_nat 0) with PrimFloat.zero.
  rewrite FloatAxioms.ltb_spec, !FloatAxioms.eqb_spec, FloatAxioms.sub_spec.
  intros Hlt Hx. destruct (SpecFloat.SFeqb _ _) eqn:Hy in |- *; [|reflexivity].
  change (FloatOps.Prim2SF PrimFloat.zero) with (SpecFloat.S754_zero false) in Hlt.
  unfold FloatAxioms.SF64sub in Hlt.
  rewrite (SFsub_tie _ _ _ Hx Hy) in Hlt. discriminate.
Qed.

(** ** The order of binary64 numbers and the sign of their difference *)

Lemma SFcompare_antisym (x y : SpecFloat.spec_float) :
  SpecFloat.SFcompare y x = option_map CompOpp (SpecFloat.SFcompare x y).
Proof.
  destruct x as [sx|sx| |sx mx ex], y as [sy|sy| |sy my ey]; simpl;
    try reflexivity;
    try (destruct sx; reflexivity); try (destruct sy; reflexivity);
    try (destruct sx, sy; reflexivity).
  destruct sx, sy; simpl; try reflexivity;
    rewrite (Z.compare_antisym ey ex);
    destruct (ey ?= ex)%Z; simpl; try reflexivity;
    pose proof (Pos.compare_cont_antisym mx my Eq) as H; simpl in H;
    now rewrite <- H.
Qed.

Section FloatOrder.

Import SpecFloat.
Local Open Scope Z_scope.

Variables prec emax : Z.
Hypothesis Hprec : 0 < prec.

















End FloatOrder.



(** Two numbers neither of which is [NaN] are comparable. *)
Lemma SFcompare_total (X Y : SpecFloat.spec_float) :
  SpecFloat.SFeqb X X = true -> SpecFloat.SFeqb Y Y = true ->
  exists c, SpecFloat.SFcompare X Y = Some c.
Proof.
  destruct X as [sx|sx| |sx mx ex], Y as [sy|sy| |sy my ey];
    try discriminate; intros _ _; cbn [SpecFloat.SFcompare]; eauto.
Qed.

Lemma F64_not_lt_ge (x y : PrimFloat.float) :
  PrimFloat.is_nan x = false -> PrimFloat.is_nan y = false ->
  PrimFloat.ltb x y = false -> PrimFloat.leb y x = true.
Proof.
  unfold PrimFloat.is_nan.
  rewrite !FloatAxioms.eqb_spec, FloatAxioms.ltb_spec, FloatAxioms.leb_spec.
  intros Hx Hy. apply negb_false_iff in Hx. apply negb_false_iff in Hy.
  unfold SpecFloat.SFltb, SpecFloat.SFleb.
  rewrite (SFcompare_antisym (FloatOps.Prim2SF x)).
  destruct (SFcompare_total _ _ Hx Hy) as [c ->].
  now destruct c.
Qed.

(** *** The sort, in binary64 *)




Section Binary64Facts.

Import PrimFloat.

Variable Math_log : PrimFloat.float -> PrimFloat.float.
Variable parseFloat : string -> PrimFloat.float.

(** ECMAScript fixes [Math.log(1)] to [+0]. *)
Hypothesis Math_log_1 : Math_log 1%float = 0%float.

(** When every token occurs in every document, every weight is [1]. *)
Lemma idf_spa_pool (n : string) :
  tokenize (buildProfileText (Sample.described "spa pool" (Some n) None))
  = tokenize ("spa pool " ++ n) ->
  StrSet.from (tokenize ("spa pool " ++ n)) = ["spa"; "pool"] ->
  inverseDocumentFrequency (J:=F64) Math_log
    (map buildProfileText
         ([Sample.described "spa pool" (Some n) None]
          ++ [Sample.described "spa pool pool" None None]))
  = Sample.vector64 [("spa", 1%float); ("pool", 1%float)].
Proof.
  intros Ht Hs. unfold inverseDocumentFrequency.
  cbn [map app fold_left]. rewrite Ht, Hs.
  vm_compute. now rewrite Math_log_1.
Qed.

Lemma niche_spa_scores :
  map scores (computeMatches (J:=F64) Math_log parseFloat
                [Sample.described "spa pool" (Some "Spa") None]
                [Sample.described "spa pool pool" None None])
  = [(98%float, 80%float, 0%float)].
Proof.
  rewrite computeMatches_single, idf_spa_pool by reflexivity.
  vm_compute. reflexivity.
Qed.

Lemma niche_pool_scores :
  map scores (computeMatches (J:=F64) Math_log parseFloat
                [Sample.described "spa pool" (Some "Pool") None]
                [Sample.described "spa pool pool" None None])
  = [(99%float, 100%float, 0%float)].
Proof.
  rewrite computeMatches_single, idf_spa_pool by reflexivity.
  vm_compute. reflexivity.
Qed.

Lemma shared_names_scores :
  map scores (computeMatches (J:=F64) Math_log parseFloat
                [Sample.named "Coral Ski" "bay" ["Sea"]]
                [Sample.named "Bay Sea" "coral" ["Ski"]])
  = [(99%float, 100%float, 0%float)].
Proof.
  rewrite computeMatches_single.
  assert (Hidf : inverseDocumentFrequency (J:=F64) Math_log
                   (map buildProfileText
                        ([Sample.named "Coral Ski" "bay" ["Sea"]]
                         ++ [Sample.named "Bay Sea" "coral" ["Ski"]]))
                 = Sample.vector64 [("coral", 1%float); ("ski", 1%float);
                                    ("bay", 1%float); ("sea", 1%float)]).
  { vm_compute. now rewrite Math_log_1. }
  rewrite Hidf. vm_compute. reflexivity.
Qed.

(** Two profiles with no field at all are matched without a call to
    [Math.log] or [parseFloat]: the score is the floor, and the explanation
    prints the absent names. *)
Lemma blank_profiles_match :
  computeMatches (J:=F64) Math_log parseFloat [Sample.blank] [Sample.blank]
  = [ @Build_Match F64 Sample.blank Sample.blank 50%float 0%float 0%float
        "undefined's creative approach could bring a fresh perspective to undefined's content strategy." ].
Proof. vm_compute. reflexivity. Qed.

End Binary64Facts.

(** * The claims *)

Section Claims.

Import ExactReal.
Local Open Scope R_scope.

(** ** C1 *)

(** C1, as stated, fails: [niche] (like [location] and [type]) is part of the
    profile text, so it moves the scores.  Two creators that differ in
    [niche] alone, matched with the same hotel in binary64 arithmetic under
    any [Math.log] with [Math.log(1) = +0], get the scores 98/80/0 and
    99/100/0. *)
Lemma C1_counterexample :
  same_core_fields (Sample.described "spa pool" (Some "Spa") None)
                   (Sample.described "spa pool" (Some "Pool") None) /\
  forall (Math_log : PrimFloat.float -> PrimFloat.float)
         (parseFloat : string -> PrimFloat.float),
    Math_log PrimFloat.one = PrimFloat.zero ->
    map scores (computeMatches (J:=F64) Math_log parseFloat
                  [Sample.described "spa pool" (Some "Spa") None]
                  [Sample.described "spa pool pool" None None])
    <> map scores (computeMatches (J:=F64) Math_log parseFloat
                     [Sample.described "spa pool" (Some "Pool") None]
                     [Sample.described "spa pool pool" None None]).
Proof.
  split; [repeat split|].
  intros lg pf Hlg.
  rewrite (niche_spa_scores lg pf Hlg), (niche_pool_scores lg pf Hlg).
  intros H. apply (f_equal (fun l => match l with
                                     | (s, _, _) :: _ => PrimFloat.eqb s (@of_nat F64 98)
                                     | [] => true
                                     end)) in H.
  vm_compute in H. discriminate.
Qed.

(** C1, amended: [engagement], [rating] and [collabs] influence no score.
    In any arithmetic, collections that agree on name, description, tags,
    niche, location and type of every profile get the same displayScore,
    textSimilarity and tagOverlap for every pair. *)
Theorem C1_scores_ignore_engagement_rating_collabs :
  forall (J : JSNumber) (Math_log : num -> num) (parseFloat : string -> num)
         (creators creators' hotels hotels' : list Profile),
    Forall2 same_text_fields creators creators' ->
    Forall2 same_text_fields hotels hotels' ->
    map scores (computeMatches Math_log parseFloat creators hotels)
    = map scores (computeMatches Math_log parseFloat creators' hotels').
Proof.
  intros J lg pf cs cs' hs hs' Hc Hh.
  assert (Hview : forall l l', Forall2 same_text_fields l l' ->
                               map scoring_view l = map scoring_view l').
  { induction 1 as [|p q l l' Hpq _ IH]; [reflexivity|]. simpl. f_equal; [|exact IH].
    destruct Hpq as (Hn & Hd & Ht & Hni & Hl & Hty).
    unfold scoring_view, buildProfileText. now rewrite Hn, Hd, Ht, Hni, Hl, Hty. }
  apply scores_by_view; now apply Hview.
Qed.

(** C1, at two creators that differ in their engagement rate alone. *)
Lemma C1_witness :
  map scores (computeMatches (J:=Exact) xlog (fun _ => Fin 5)
                [Sample.described "spa pool" (Some "Spa") (Some "4.2%")]
                [Sample.described "spa pool pool" None None])
  = map scores (computeMatches (J:=Exact) xlog (fun _ => Fin 5)
                  [Sample.described "spa pool" (Some "Spa") (Some "6.1%")]
                  [Sample.described "spa pool pool" None None]).
Proof.
  apply (C1_scores_ignore_engagement_rating_collabs Exact);
    repeat constructor.
Defined.

(** ** C2 *)

(** C2: every match that [computeMatches] returns belongs to a creator and a
    hotel of the input, and its score is
    [min(round((textSimilarity * 0.6 + tagScore * 0.4) * 100 + 50), 99)] for
    the cosine similarity of their vectors and the overlap of their tags;
    this holds in any arithmetic, and in exact arithmetic it is the integer
    [min(round((0.6 t + 0.4 g) * 100 + 50), 99)]. *)
Theorem C2_score_formula :
  (forall (J : JSNumber) (Math_log : num -> num) (parseFloat : string -> num)
          (creators hotels : list Profile),
      Forall
        (fun m =>
           let idf := inverseDocumentFrequency Math_log
                        (map buildProfileText (creators ++ hotels)) in
           let textSimilarity :=
             cosineSimilarity (tfidfVector (buildProfileText (creator m)) idf)
                              (tfidfVector (buildProfileText (hotel m)) idf) in
           let tagScore :=
             tagOverlapScore (or_nil (tags (creator m))) (or_nil (tags (hotel m))) in
           let rawScore :=
             js_add (js_mul textSimilarity lit_0_6) (js_mul tagScore lit_0_4) in
           In (creator m) creators /\ In (hotel m) hotels /\
           score m = Math_min (Math_round (js_add (js_mul rawScore (of_nat 100))
                                                  (of_nat 50)))
                              (of_nat 99))
        (computeMatches Math_log parseFloat creators hotels))
  /\
  (forall (parseFloat : string -> xreal) (creators hotels : list Profile),
      Forall
        (fun m : @Match Exact =>
           let idf := inverseDocumentFrequency (J:=Exact) xlog
                        (map buildProfileText (creators ++ hotels)) in
           exists t g : R,
             cosineSimilarity (tfidfVector (buildProfileText (creator m)) idf)
                              (tfidfVector (buildProfileText (hotel m)) idf) = Fin t /\
             tagOverlapScore (J:=Exact) (or_nil (tags (creator m)))
                             (or_nil (tags (hotel m))) = Fin g /\
             score m
             = Fin (IZR (Z.min (round_half_up ((6 / 10 * t + 4 / 10 * g) * 100 + 50))
                               99)))
        (computeMatches (J:=Exact) xlog parseFloat creators hotels)).
Proof.
  split.
  - intros J lg pf cs hs. unfold computeMatches. apply Array_sort_Forall.
    unfold allPairs. apply Forall_forall. intros m Hm.
    apply in_flat_map in Hm. destruct Hm as [cv [Hcv Hm]].
    apply in_map_iff in Hm. destruct Hm as [hv [<- Hhv]].
    apply in_map_iff in Hcv. destruct Hcv as [c [<- Hc]].
    apply in_map_iff in Hhv. destruct Hhv as [h [<- Hh]].
    cbn. repeat split; assumption.
  - intros pf cs hs. unfold computeMatches. apply Array_sort_Forall.
    eapply Forall_impl; [|apply allPairs_exact_scores].
    intros m (t & g & Ht & Hg & _ & _ & Hs). exists t, g.
    split; [exact Ht|]. split; [exact Hg|].
    unfold scores in Hs. injection Hs as Hs _ _. rewrite Hs. unfold display.
    replace ((6 / 10 * t + 4 / 10 * g) * 100 + 50)
      with ((t * (6 / 10) + g * (4 / 10)) * 100 + 50) by lra.
    reflexivity.
Qed.

(** ** C4 *)


(** ** C5 *)

(** C5, at the failing input: for two profiles with no field at all, the
    explanation [computeMatches] returns in binary64, whatever [Math.log] and
    [parseFloat] are, names both profiles [undefined], where the same
    profiles with the empty string for a name yield an explanation with the
    empty name: [generateExplanation] interpolates [creator.name] and
    [hotel.name] without the guard [|| ''] that [buildProfileText] has.  The
    scores do treat absent fields as empty: in any arithmetic they are those
    of the profiles with the empty string and the empty list filled in. *)
Theorem C5_absent_name_is_printed_as_undefined :
  (forall (Math_log : PrimFloat.float -> PrimFloat.float)
          (parseFloat : string -> PrimFloat.float),
      map explanation (computeMatches (J:=F64) Math_log parseFloat
                         [Sample.blank] [Sample.blank])
      = ["undefined's creative approach could bring a fresh perspective to undefined's content strategy."]
      /\
      map explanation (computeMatches (J:=F64) Math_log parseFloat
                         [with_defaults Sample.blank] [with_defaults Sample.blank])
      = ["'s creative approach could bring a fresh perspective to 's content strategy."])
  /\
  (forall (J : JSNumber) (Math_log : num -> num) (parseFloat : string -> num)
          (creators hotels : list Profile),
      map scores (computeMatches Math_log parseFloat creators hotels)
      = map scores (computeMatches Math_log parseFloat
                      (map with_defaults creators) (map with_defaults hotels))).
Proof.
  split.
  - intros lg pf. split.
    + now rewrite blank_profiles_match.
    + vm_compute. reflexivity.
  - intros J lg pf cs hs.
    apply scores_by_view; rewrite map_map; apply map_ext; intros p;
      unfold scoring_view, buildProfileText, with_defaults; simpl; reflexivity.
Qed.

(** ** C6 *)

(** C6, as stated, fails in binary64: the rounded product of the two square
    roots can fall below the dot product.  For the vector with three entries
    1, [cosineSimilarity(v, v)] is 1.0000000000000002, above 1. *)
Lemma C6_counterexample :
  js_gt (cosineSimilarity (J:=F64)
           (Sample.vector64 [("x", PrimFloat.one); ("y", PrimFloat.one);
                             ("z", PrimFloat.one)])
           (Sample.vector64 [("x", PrimFloat.one); ("y", PrimFloat.one);
                             ("z", PrimFloat.one)]))
        (@of_nat F64 1)
  = true.
Proof. vm_compute. reflexivity. Qed.

(** C6, amended: in exact arithmetic, for two vectors with non-negative
    entries and no key that shadows a member of [Object.prototype],
    [cosineSimilarity] returns a number between 0 and 1, and returns 0 when
    all entries of either vector are 0 (its norm is 0). *)
Theorem C6_cosine_range_exact :
  forall a b : @object Exact,
    plain_vector a -> plain_vector b ->
    exists r : R,
      cosineSimilarity a b = Fin r /\ 0 <= r <= 1 /\
      ((forall k, entry a k = 0) \/ (forall k, entry b k = 0) -> r = 0).
Proof.
  intros a b Ha Hb.
  destruct (cosineSimilarity_range a b Ha Hb) as [r [Hr Hrange]].
  exists r. repeat split; try lra; try assumption.
  intros Hz.
  assert (H0 : cosineSimilarity a b = Fin 0).
  { apply cosineSimilarity_orthogonal; try assumption.
    intros k. destruct Hz as [Hz|Hz]; [left | right]; apply Hz. }
  rewrite Hr in H0. now injection H0.
Qed.

(** C6, at the vectors (1, 2) under spa, pool and (3) under spa. *)
Lemma C6_witness :
  exists r : R,
    cosineSimilarity (Sample.vector [("spa", 1); ("pool", 2)])
                     (Sample.vector [("spa", 3)]) = Fin r /\
    0 <= r <= 1 /\
    ((forall k, entry (Sample.vector [("spa", 1); ("pool", 2)]) k = 0) \/
     (forall k, entry (Sample.vector [("spa", 3)]) k = 0) -> r = 0).
Proof.
  apply (C6_cosine_range_exact (Sample.vector [("spa", 1); ("pool", 2)])
                               (Sample.vector [("spa", 3)]));
    repeat constructor; simpl; eexists; (split; [reflexivity | lra]).
Defined.

(** ** C7 *)

(** C7, as stated, fails in binary64 on both counts: for the vector with two
    entries 1 the similarity to itself is 0.9999999999999998, not 1; and two
    vectors that list their keys in different orders are summed in different
    orders, so that for (0.1, 0.1, 0.1) under the keys p, q, r and (0.1, 0.1,
    0.3) under r, q, p the two directions differ in the last digit. *)
Lemma C7_counterexample :
  strict_eq (cosineSimilarity (J:=F64)
               (Sample.vector64 [("x", PrimFloat.one); ("y", PrimFloat.one)])
               (Sample.vector64 [("x", PrimFloat.one); ("y", PrimFloat.one)]))
            (@of_nat F64 1)
  = false /\
  strict_eq
    (cosineSimilarity (J:=F64)
       (Sample.vector64 [("p", Binary64.lit 1 10); ("q", Binary64.lit 1 10);
                         ("r", Binary64.lit 1 10)])
       (Sample.vector64 [("r", Binary64.lit 1 10); ("q", Binary64.lit 1 10);
                         ("p", Binary64.lit 3 10)]))
    (cosineSimilarity (J:=F64)
       (Sample.vector64 [("r", Binary64.lit 1 10); ("q", Binary64.lit 1 10);
                         ("p", Binary64.lit 3 10)])
       (Sample.vector64 [("p", Binary64.lit 1 10); ("q", Binary64.lit 1 10);
                         ("r", Binary64.lit 1 10)]))
  = false.
Proof. split; vm_compute; reflexivity. Qed.

(** C7, amended: in exact arithmetic [cosineSimilarity(v, v)] is 1 for every
    vector of numbers with a non-zero entry, and [cosineSimilarity(a, b)]
    equals [cosineSimilarity(b, a)] for all vectors. *)
Theorem C7_self_similarity_and_symmetry_exact :
  forall (v a b : @object Exact) (k : string),
    numeric_vector v -> entry v k <> 0 ->
    cosineSimilarity v v = Fin 1 /\
    cosineSimilarity a b = cosineSimilarity b a.
Proof.
  intros v a b k Hv Hk. split.
  - now apply (cosineSimilarity_self v k).
  - apply cosineSimilarity_sym.
Qed.

(** C7, at the vector (1, 1) and at two vectors with one common key. *)
Lemma C7_witness :
  cosineSimilarity (Sample.vector [("x", 1); ("y", 1)])
                   (Sample.vector [("x", 1); ("y", 1)]) = Fin 1 /\
  cosineSimilarity (Sample.vector [("p", 1); ("q", 2)]) (Sample.vector [("q", 3)])
  = cosineSimilarity (Sample.vector [("q", 3)]) (Sample.vector [("p", 1); ("q", 2)]).
Proof.
  apply (C7_self_similarity_and_symmetry_exact
           (Sample.vector [("x", 1); ("y", 1)])
           (Sample.vector [("p", 1); ("q", 2)]) (Sample.vector [("q", 3)]) "x").
  - repeat constructor; simpl; eexists; reflexivity.
  - unfold entry. simpl. lra.
Defined.

(** ** C8 *)

(** C8, at the failing input: the token [constructor] occurs in the one
    document of the corpus, and in any arithmetic its weight is
    [Math.log(1 / NaN) + 1], which in exact arithmetic is [NaN], and not
    [ln(1/1) + 1 = 1]: the counter [idf[word] || 0] finds the function
    [Object] that every plain object inherits under that key, and becomes a
    string.  Another token of the same document gets the weight 1. *)
Lemma C8_constructor_weight_is_NaN :
  documentCount ["Constructor of dreams"] "constructor" = 1%nat /\
  (forall (J : JSNumber) (Math_log : num -> num),
      get (inverseDocumentFrequency Math_log ["Constructor of dreams"]) "constructor"
      = VNum (js_add (Math_log (js_div (of_nat 1) NaN)) (of_nat 1))) /\
  get (inverseDocumentFrequency (J:=Exact) xlog ["Constructor of dreams"])
      "constructor" = VNum (J:=Exact) XNaN /\
  get (inverseDocumentFrequency (J:=Exact) xlog ["Constructor of dreams"])
      "dreams" = VNum (J:=Exact) (Fin 1).
Proof.
  split; [reflexivity|]. split; [intros J lg; reflexivity|].
  unfold get. rewrite !inverseDocumentFrequency_own.
  split.
  - reflexivity.
  - change (documentCount ["Constructor of dreams"] "dreams") with 1%nat.
    cbv iota. change (Obj.inherited "dreams") with false. cbv iota.
    fin_eq. simpl. unfold Rdiv. rewrite Rinv_1, Rmult_1_r, ln_1. ring.
Qed.

(** ** C9 *)

(** C9, as stated, fails: the profile text also holds the name (and the
    tags, niche, location and type), so two profiles whose descriptions and
    tags are disjoint can still share tokens.  In binary64 arithmetic, under
    any [Math.log] with [Math.log(1) = +0], such a pair is displayed with 99
    and a text similarity of 100. *)
Lemma C9_counterexample :
  disjointb (tokenize "bay") (tokenize "coral") = true /\
  disjointb (tagSet ["Sea"]) (tagSet ["Ski"]) = true /\
  forall (Math_log : PrimFloat.float -> PrimFloat.float)
         (parseFloat : string -> PrimFloat.float),
    Math_log PrimFloat.one = PrimFloat.zero ->
    map scores (computeMatches (J:=F64) Math_log parseFloat
                  [Sample.named "Coral Ski" "bay" ["Sea"]]
                  [Sample.named "Bay Sea" "coral" ["Ski"]])
    = [(@of_nat F64 99, @of_nat F64 100, @of_nat F64 0)].
Proof.
  repeat split. intros lg pf Hlg. now rewrite (shared_names_scores lg pf Hlg).
Qed.

(** C9, amended: in exact arithmetic, two profiles whose whole texts (name,
    description, tags, niche, location, type) share no token and whose tag
    sets are disjoint without regard to case yield a single match with
    displayScore 50, textSimilarity 0 and tagOverlap 0. *)
Theorem C9_disjoint_profiles_floor :
  forall (parseFloat : string -> xreal) (a b : Profile),
    disjointb (tokenize (buildProfileText a)) (tokenize (buildProfileText b)) = true ->
    disjointb (tagSet (or_nil (tags a))) (tagSet (or_nil (tags b))) = true ->
    exists m : @Match Exact,
      computeMatches (J:=Exact) xlog parseFloat [a] [b] = [m] /\
      score m = Fin 50 /\ textSimilarity m = Fin 0 /\ tagOverlap m = Fin 0.
Proof.
  intros pf a b Htext Htags.
  pose proof (disjoint_profiles_scores pf a b Htext Htags) as H.
  rewrite computeMatches_single in *.
  set (m := matchPair _ _ _) in *. clearbody m.
  exists m. split; [reflexivity|].
  cbn [map] in H. unfold scores in H. injection H as Hs Ht Hg.
  repeat split; assumption.
Qed.

(** C9, at two profiles with no common token and no common tag. *)
Lemma C9_witness :
  exists m : @Match Exact,
    computeMatches (J:=Exact) xlog (fun _ => Fin 0)
      [Sample.named "Coral" "bay" ["Sea"]] [Sample.named "Alpine" "ski" ["Snow"]]
    = [m] /\
    score m = Fin 50 /\ textSimilarity m = Fin 0 /\ tagOverlap m = Fin 0.
Proof.
  apply (C9_disjoint_profiles_floor (fun _ => Fin 0)
           (Sample.named "Coral" "bay" ["Sea"])
           (Sample.named "Alpine" "ski" ["Snow"])); reflexivity.
Defined.

(** ** C10 *)

(** C10: the matches are generated creator by creator and, for one creator,
    hotel by hotel; [computeMatches] is the stable sort of that list, so the
    matches displayed with one score keep the order they were generated in,
    in exact arithmetic and in binary64 alike. *)
Theorem C10_ties_keep_generation_order :
  (forall (J : JSNumber) (Math_log : num -> num) (parseFloat : string -> num)
          (creators hotels : list Profile),
      map pair_of (allPairs Math_log parseFloat creators hotels)
      = list_prod creators hotels) /\
  (forall (parseFloat : string -> xreal) (creators hotels : list Profile) (s : xreal),
      with_score (J:=Exact) s (computeMatches (J:=Exact) xlog parseFloat creators hotels)
      = with_score (J:=Exact) s (allPairs (J:=Exact) xlog parseFloat creators hotels)) /\
  (forall (Math_log : PrimFloat.float -> PrimFloat.float)
          (parseFloat : string -> PrimFloat.float)
          (creators hotels : list Profile) (s : PrimFloat.float),
      with_score (J:=F64) s (computeMatches (J:=F64) Math_log parseFloat creators hotels)
      = with_score (J:=F64) s (allPairs (J:=F64) Math_log parseFloat creators hotels)).
Proof.
  repeat split.
  - intros. apply allPairs_order.
  - intros pf cs hs s. unfold computeMatches.
    apply (Array_sort_with_score Exact_ties_respected).
  - intros lg pf cs hs s. unfold computeMatches.
    apply (Array_sort_with_score F64_ties_respected).
Qed.

End Claims.

(** * Further properties *)

(** ** Tokens *)

Lemma all_chars_app (p : ascii -> bool) (a b : string) :
  all_chars p (a ++ b) = all_chars p a && all_chars p b.
Proof.
  induction a as [|c a IH]; simpl; [reflexivity|].
  now rewrite IH, andb_assoc.
Qed.

Lemma strip_kept (s : string) :
  all_chars (fun c => Str.is_lower_alnum c || Str.is_space c) (Str.strip s) = true.
Proof.
  induction s as [|c s IH]; simpl; [reflexivity|].
  destruct (Str.is_lower_alnum c || Str.is_space c) eqn:E; [|exact IH].
  simpl. now rewrite E.
Qed.

Lemma split_ws_alnum (s : string) :
  forall (cur : string) (skipping : bool),
    all_chars (fun c => Str.is_lower_alnum c || Str.is_space c) s = true ->
    all_chars Str.is_lower_alnum cur = true ->
    Forall (fun w => all_chars Str.is_lower_alnum w = true)
           (Str.split_ws cur skipping s).
Proof.
  induction s as [|c s IH]; intros cur sk Hs Hcur; simpl.
  - now constructor.
  - simpl in Hs. apply andb_true_iff in Hs. destruct Hs as [Hc Hs].
    destruct (Str.is_space c) eqn:Esp.
    + destruct sk; [now apply IH|]. constructor; [exact Hcur|]. now apply IH.
    + apply IH; [exact Hs|]. rewrite all_chars_app, Hcur. simpl.
      rewrite orb_false_r in Hc. now rewrite Hc.
Qed.

Lemma tokenize_alnum (text w : string) :
  In w (tokenize text) -> all_chars Str.is_lower_alnum w = true.
Proof.
  unfold tokenize. intros Hw. apply filter_In in Hw. destruct Hw as [Hin _].
  revert w Hin. apply Forall_forall.
  apply split_ws_alnum; [apply strip_kept | reflexivity].
Qed.

(** X1: whatever the text, every token [tokenize] returns has two characters
    or more, all of them lower-case letters or digits. *)
Theorem tokens_are_lowercase_words (text : string) :
  Forall (fun w => 2 <= String.length w /\ all_chars Str.is_lower_alnum w = true)
         (tokenize text).
Proof.
  unfold tokenize. apply Forall_forall. intros w Hw.
  apply filter_In in Hw. destruct Hw as [Hin Hlen]. split.
  - apply Nat.ltb_lt in Hlen. lia.
  - clear Hlen. revert w Hin. apply Forall_forall.
    apply split_ws_alnum; [apply strip_kept | reflexivity].
Qed.

Lemma lower_char_idempotent (c : ascii) :
  Str.lower_char (Str.lower_char c) = Str.lower_char c.
Proof. destruct c as [[] [] [] [] [] [] [] []]; reflexivity. Qed.

Lemma toLowerCase_idempotent (s : string) :
  Str.toLowerCase (Str.toLowerCase s) = Str.toLowerCase s.
Proof.
  induction s as [|c s IH]; simpl; [reflexivity|].
  now rewrite lower_char_idempotent, IH.
Qed.

Lemma toLowerCase_app (a b : string) :
  Str.toLowerCase (a ++ b) = (Str.toLowerCase a ++ Str.toLowerCase b)%string.
Proof. induction a as [|c a IH]; simpl; [reflexivity | now rewrite IH]. Qed.

Lemma strip_app (a b : string) :
  Str.strip (a ++ b) = (Str.strip a ++ Str.strip b)%string.
Proof.
  induction a as [|c a IH]; simpl; [reflexivity|].
  destruct (Str.is_lower_alnum c || Str.is_space c); simpl; now rewrite IH.
Qed.

(** A separator that was just read hides an empty piece, which is no token. *)
Lemma split_ws_skipping (s : string) :
  filter long_enough (Str.split_ws "" true s)
  = filter long_enough (Str.split_ws "" false s).
Proof.
  destruct s as [|c s]; simpl; [reflexivity|].
  destruct (Str.is_space c); reflexivity.
Qed.

Lemma split_ws_space (sp : ascii) (s2 : string) (Hsp : Str.is_space sp = true)
      (s1 : string) :
  forall (cur : string) (skipping : bool),
    (skipping = true -> cur = "") ->
    filter long_enough (Str.split_ws cur skipping (s1 ++ String sp s2))
    = filter long_enough (Str.split_ws cur skipping s1)
      ++ filter long_enough (Str.split_ws "" false s2).
Proof.
  induction s1 as [|c s1 IH]; intros cur sk Hinv.
  - cbn [append Str.split_ws]. rewrite Hsp. destruct sk.
    + rewrite (Hinv eq_refl). now rewrite split_ws_skipping.
    + cbn [filter]. rewrite split_ws_skipping.
      destruct (long_enough cur); reflexivity.
  - cbn [append Str.split_ws]. destruct (Str.is_space c).
    + destruct sk.
      * now apply IH.
      * cbn [filter]. rewrite IH by reflexivity.
        destruct (long_enough cur); reflexivity.
    + apply IH. discriminate.
Qed.

(** The tokens of two texts joined by a space are the tokens of the one
    followed by the tokens of the other. *)
Lemma tokenize_space (a b : string) :
  tokenize (a ++ " " ++ b) = tokenize a ++ tokenize b.
Proof.
  unfold tokenize. fold long_enough.
  rewrite !toLowerCase_app, !strip_app.
  change (Str.strip (Str.toLowerCase " ")) with " ".
  rewrite <- filter_app. cbn [append].
  rewrite (split_ws_space " "%char _ eq_refl); [|discriminate].
  now rewrite filter_app.
Qed.

Lemma tokenize_join (parts : list string) :
  tokenize (Str.join " " parts) = flat_map tokenize parts.
Proof.
  unfold Str.join. induction parts as [|x [|y l] IH].
  - reflexivity.
  - cbn [String.concat flat_map]. now rewrite app_nil_r.
  - change (String.concat " " (x :: y :: l))
      with (x ++ " " ++ String.concat " " (y :: l))%string.
    rewrite tokenize_space, IH. reflexivity.
Qed.

(** ** Keys of the objects the engine builds *)

Lemma set_keys {V : Type} (o : Obj.t V) (k : string) (v : V) :
  map fst (Obj.set o k v) = StrSet.add (map fst o) k.
Proof.
  unfold StrSet.add, StrSet.has. induction o as [|[k' v'] r IH]; simpl.
  - reflexivity.
  - rewrite (String.eqb_sym k k'). destruct (String.eqb k' k); simpl.
    + reflexivity.
    + rewrite IH. now destruct (existsb (String.eqb k) (map fst r)).
Qed.

Lemma has_ext (s s' : list string) (k : string) :
  (In k s <-> In k s') -> StrSet.has s k = StrSet.has s' k.
Proof.
  intros H. destruct (StrSet.has s k) eqn:E, (StrSet.has s' k) eqn:E'; try reflexivity.
  - apply StrSet_has_In, H, StrSet_has_In in E. congruence.
  - apply StrSet_has_In, H, StrSet_has_In in E'. congruence.
Qed.

(** A loop that sets [f w] under each key [w] that passes the test [c]. *)
Lemma fold_set_own {V : Type} (c : string -> bool) (f : string -> V) (ks : list string) :
  forall (v0 : Obj.t V) (k : string),
    Obj.own (fold_left (fun v w => if c w then Obj.set v w (f w) else v) ks v0) k
    = if StrSet.has ks k && c k then Some (f k) else Obj.own v0 k.
Proof.
  unfold StrSet.has. induction ks as [|w ks IH]; intros v0 k; simpl.
  - reflexivity.
  - rewrite IH. destruct (String.eqb k w) eqn:E; simpl.
    + apply String.eqb_eq in E. subst w.
      destruct (c k); [|now rewrite andb_false_r].
      rewrite own_set_same. now destruct (existsb _ ks).
    + assert (Hne : k <> w) by (intros ->; now rewrite String.eqb_refl in E).
      destruct (c w); [now rewrite own_set_other|reflexivity].
Qed.

Section KeyFacts.

Context {J : JSNumber}.
Variable Math_log : num -> num.

Lemma fold_increment_keys (tokens : list string) :
  forall o : object,
    map fst (fold_left increment tokens o) = fold_left StrSet.add tokens (map fst o).
Proof.
  induction tokens as [|t ts IH]; intros o; simpl; [reflexivity|].
  rewrite IH. unfold increment. now rewrite set_keys.
Qed.

Lemma termFrequency_keys_order (tokens : list string) :
  map fst (termFrequency tokens) = StrSet.from tokens.
Proof.
  unfold termFrequency. cbv zeta. rewrite map_map. cbn [fst].
  apply (fold_increment_keys tokens []).
Qed.

Lemma fold_documents_keys (documents : list string) :
  forall o : object,
    NoDup (map fst o) ->
    NoDup (map fst (fold_left (fun idf doc =>
                                 fold_left increment (StrSet.from (tokenize doc)) idf)
                              documents o))
    /\ forall k,
        In k (map fst (fold_left (fun idf doc =>
                                    fold_left increment (StrSet.from (tokenize doc)) idf)
                                 documents o))
        <-> In k (map fst o) \/ exists doc, In doc documents /\ In k (tokenize doc).
Proof.
  induction documents as [|d ds IH]; intros o Ho; simpl.
  - split; [exact Ho|]. intros k. split; [now left|].
    intros [H|[doc [[] _]]]. exact H.
  - set (o' := fold_left increment (StrSet.from (tokenize d)) o).
    assert (Hk : map fst o' = fold_left StrSet.add (StrSet.from (tokenize d)) (map fst o))
      by apply fold_increment_keys.
    destruct (IH o') as [Hnd Hin].
    { rewrite Hk. now apply fold_add_NoDup. }
    split; [exact Hnd|]. intros k. rewrite Hin, Hk, fold_add_In, StrSet_from_In.
    split.
    + intros [[H|H]|[doc [Hd Hkd]]].
      * now left.
      * right. exists d. split; [now left|exact H].
      * right. exists doc. split; [now right|exact Hkd].
    + intros [H|[doc [[<-|Hd] Hkd]]].
      * left. now left.
      * left. now right.
      * right. now exists doc.
Qed.

(** X6: the object [inverseDocumentFrequency] returns has one key for each
    token of each document, and no other, whatever [Math.log] is. *)
Theorem idf_keys_are_corpus_tokens (documents : list string) :
  NoDup (map fst (inverseDocumentFrequency Math_log documents))
  /\ forall k,
      In k (map fst (inverseDocumentFrequency Math_log documents))
      <-> exists doc, In doc documents /\ In k (tokenize doc).
Proof.
  unfold inverseDocumentFrequency. cbv zeta. rewrite map_map. cbn [fst].
  destruct (fold_documents_keys documents []) as [Hnd Hin]; [constructor|].
  split; [exact Hnd|]. intros k. rewrite Hin. split.
  - now intros [[]|H].
  - now right.
Qed.

Lemma tfidfVector_own (text : string) (idf : object) (k : string) :
  Obj.own (tfidfVector text idf) k
  = if StrSet.has (tokenize text) k && ToBoolean (get idf k)
    then Some (VNum (js_mul (ToNumber (get (termFrequency (tokenize text)) k))
                            (ToNumber (get idf k))))
    else None.
Proof.
  unfold tfidfVector. cbv zeta.
  rewrite (fold_set_own (fun w => ToBoolean (get idf w))
             (fun w => VNum (js_mul (ToNumber (get (termFrequency (tokenize text)) w))
                                    (ToNumber (get idf w))))).
  rewrite (has_ext (Obj.keys (termFrequency (tokenize text))) (tokenize text)).
  - reflexivity.
  - now rewrite keys_In, termFrequency_keys_order, StrSet_from_In.
Qed.

Lemma own_key {V : Type} (o : Obj.t V) (k : string) :
  In k (map fst o) <-> Obj.own o k <> None.
Proof.
  split.
  - intros H. destruct (In_own o k H) as [v Hv]. congruence.
  - intros H. destruct (in_dec string_dec k (map fst o)) as [Hin|Hn]; [exact Hin|].
    apply own_None in Hn. contradiction.
Qed.

Lemma tfidfVector_keys (text : string) (idf : object) (k : string) :
  In k (map fst (tfidfVector text idf))
  <-> In k (tokenize text) /\ ToBoolean (get idf k) = true.
Proof.
  rewrite own_key, tfidfVector_own, <- StrSet_has_In.
  destruct (StrSet.has (tokenize text) k), (ToBoolean (get idf k)); simpl;
    split; try congruence; try tauto; intros [? ?]; congruence.
Qed.

End KeyFacts.

(** ** Tag overlap, in any arithmetic *)

Lemma tagSet_In (tags : list string) (x : string) :
  In x (tagSet tags) <-> In x (map Str.toLowerCase tags).
Proof. apply StrSet_from_In. Qed.

Lemma sharedTags_In (tagsA tagsB : list string) (x : string) :
  In x (sharedTags tagsA tagsB) <-> In x (tagSet tagsA) /\ In x (tagSet tagsB).
Proof. unfold sharedTags. now rewrite filter_In, StrSet_has_In. Qed.

Lemma sharedTags_NoDup (tagsA tagsB : list string) : NoDup (sharedTags tagsA tagsB).
Proof. apply NoDup_filter, StrSet_from_NoDup. Qed.

Lemma unionTags_In (tagsA tagsB : list string) (x : string) :
  In x (unionTags tagsA tagsB) <-> In x (tagSet tagsA) \/ In x (tagSet tagsB).
Proof. unfold unionTags. now rewrite StrSet_from_In, in_app_iff. Qed.

(** The two counts the score is made of depend on the two sets of
    lower-cased tags only. *)
Lemma tag_counts_ext (a b a' b' : list string) :
  (forall x, In x (map Str.toLowerCase a) <-> In x (map Str.toLowerCase a')) ->
  (forall x, In x (map Str.toLowerCase b) <-> In x (map Str.toLowerCase b')) ->
  List.length (sharedTags a b) = List.length (sharedTags a' b')
  /\ List.length (unionTags a b) = List.length (unionTags a' b').
Proof.
  intros Ha Hb. split; apply Permutation_length, NoDup_Permutation.
  - apply sharedTags_NoDup.
  - apply sharedTags_NoDup.
  - intros x. now rewrite !sharedTags_In, !tagSet_In, Ha, Hb.
  - apply StrSet_from_NoDup.
  - apply StrSet_from_NoDup.
  - intros x. now rewrite !unionTags_In, !tagSet_In, Ha, Hb.
Qed.

Lemma tag_counts_sym (a b : list string) :
  List.length (sharedTags a b) = List.length (sharedTags b a)
  /\ List.length (unionTags a b) = List.length (unionTags b a).
Proof.
  split; apply Permutation_length.
  - apply NoDup_Permutation; try apply sharedTags_NoDup.
    intros x. rewrite !sharedTags_In. tauto.
  - apply StrSet_from_app_comm.
Qed.

Lemma overlap_fold_count {J : JSNumber} (setB setA : list string) :
  forall acc : num,
    fold_left (fun overlap tag =>
                 if StrSet.has setB tag then js_add overlap (of_nat 1) else overlap)
              setA acc
    = Nat.iter (List.length (filter (StrSet.has setB) setA))
               (fun x => js_add x (of_nat 1)) acc.
Proof.
  induction setA as [|t r IH]; intros acc; simpl; [reflexivity|].
  rewrite IH. destruct (StrSet.has setB t); [|reflexivity].
  cbn [List.length]. now rewrite Nat.iter_succ_r.
Qed.

Lemma tagOverlapScore_counts {J : JSNumber} (tagsA tagsB : list string) :
  tagOverlapScore tagsA tagsB
  = if strict_eq (of_nat (List.length (unionTags tagsA tagsB))) (of_nat 0)
    then of_nat 0
    else js_div (count_up (List.length (sharedTags tagsA tagsB)))
                (of_nat (List.length (unionTags tagsA tagsB))).
Proof.
  unfold tagOverlapScore. cbv zeta. rewrite overlap_fold_count. reflexivity.
Qed.

(** ** Frequencies and weights, in exact arithmetic *)

Section WeightFacts.

Import ExactReal.
Local Open Scope R_scope.
#[local] Existing Instance Exact.

Local Abbreviation xobject := (@object Exact).
Local Abbreviation vnum r := (@VNum Exact (Fin r)).

Lemma sum_over_ext (ks : list string) (f g : string -> R) :
  (forall k, In k ks -> f k = g k) -> sum_over ks f = sum_over ks g.
Proof.
  induction ks as [|k ks IH]; intros H; simpl; [reflexivity|].
  rewrite (H k) by now left. rewrite IH; [reflexivity|].
  intros k' Hk'. apply H. now right.
Qed.

Lemma sum_over_plus (ks : list string) (f g : string -> R) :
  sum_over ks (fun k => f k + g k) = sum_over ks f + sum_over ks g.
Proof. induction ks as [|k ks IH]; simpl; [ring | rewrite IH; ring]. Qed.

Lemma sum_over_scale (ks : list string) (f : string -> R) (c : R) :
  sum_over ks (fun k => f k * c) = sum_over ks f * c.
Proof. induction ks as [|k ks IH]; simpl; [ring | rewrite IH; ring]. Qed.

Lemma indicator_sum (t : string) (ks : list string) :
  NoDup ks -> In t ks ->
  sum_over ks (fun k => if string_dec t k then 1 else 0) = 1.
Proof.
  induction 1 as [|k ks Hk Hnd IH]; intros Hin; [destruct Hin|].
  simpl. destruct (string_dec t k) as [->|Hne].
  - rewrite sum_over_zero; [ring|].
    intros k' Hk'. destruct (string_dec k k') as [->|]; [contradiction|reflexivity].
  - destruct Hin as [->|Hin]; [contradiction|]. rewrite IH by exact Hin. ring.
Qed.

Lemma occurrences_sum (tokens ks : list string) :
  NoDup ks -> (forall t, In t tokens -> In t ks) ->
  sum_over ks (fun k => INR (occurrences tokens k)) = INR (List.length tokens).
Proof.
  intros Hnd. induction tokens as [|t ts IH]; intros Hcov.
  - apply sum_over_zero. reflexivity.
  - rewrite (sum_over_ext ks _
               (fun k => INR (occurrences ts k) + (if string_dec t k then 1 else 0))).
    + rewrite sum_over_plus, IH, indicator_sum.
      * cbn [List.length]. rewrite S_INR. reflexivity.
      * exact Hnd.
      * apply Hcov. now left.
      * intros t' Ht'. apply Hcov. now right.
    + intros k _. unfold occurrences. cbn [count_occ].
      destruct (string_dec t k); [rewrite S_INR|]; ring.
Qed.

Lemma termFrequency_entry (tokens : list string) (k : string) :
  Obj.inherited k = false ->
  entry (termFrequency tokens) k
  = INR (occurrences tokens k) / INR (List.length tokens).
Proof.
  intros Hk. unfold entry. rewrite termFrequency_own.
  destruct (occurrences tokens k) eqn:E.
  - unfold Rdiv. cbn [INR]. ring.
  - now rewrite Hk.
Qed.

(** X14: in exact arithmetic the term frequencies of a non-empty token list
    add up to 1, when no token shadows a member of the prototype. *)
Theorem termFrequency_sums_to_one (tokens : list string) :
  tokens <> [] ->
  Forall (fun k => Obj.inherited k = false) tokens ->
  sum_over (map fst (termFrequency tokens)) (entry (termFrequency tokens)) = 1.
Proof.
  intros Hne Hplain. rewrite termFrequency_keys_order.
  rewrite (sum_over_ext _ _
             (fun k => INR (occurrences tokens k) * / INR (List.length tokens))).
  - rewrite sum_over_scale, occurrences_sum.
    + apply Rinv_r, INR_pos_nonzero. destruct tokens; [contradiction|simpl; lia].
    + apply StrSet_from_NoDup.
    + intros t Ht. now apply StrSet_from_In.
  - intros k Hk. apply (proj1 (StrSet_from_In _ _)) in Hk.
    apply termFrequency_entry.
    exact (proj1 (Forall_forall _ tokens) Hplain k Hk).
Qed.

(** X14, at three tokens, two of them equal. *)
Lemma termFrequency_sums_to_one_witness :
  sum_over (map fst (termFrequency ["spa"; "pool"; "spa"]))
           (entry (termFrequency ["spa"; "pool"; "spa"])) = 1.
Proof.
  apply (termFrequency_sums_to_one ["spa"; "pool"; "spa"]).
  - discriminate.
  - repeat constructor.
Defined.

Lemma idf_get (documents : list string) (k : string) :
  Obj.inherited k = false -> (1 <= documentCount documents k)%nat ->
  get (inverseDocumentFrequency (J:=Exact) xlog documents) k
  = vnum (ln (INR (List.length documents) / INR (documentCount documents k)) + 1).
Proof.
  intros Hk Hdf. unfold get. rewrite inverseDocumentFrequency_own.
  destruct (documentCount documents k); [lia|]. now rewrite Hk.
Qed.

Lemma ln_monotone (x y : R) : 0 < x -> x <= y -> ln x <= ln y.
Proof.
  intros Hx [Hlt|<-]; [|lra]. apply Rlt_le, ln_increasing; assumption.
Qed.

Lemma idf_weight_order (n d1 d2 : nat) :
  (1 <= d1 <= d2)%nat -> (d2 <= n)%nat ->
  1 <= ln (INR n / INR d2) + 1 <= ln (INR n / INR d1) + 1.
Proof.
  intros H12 Hn.
  assert (H1 : 0 < INR d1) by (apply lt_0_INR; lia).
  assert (H2 : 0 < INR d2) by (apply lt_0_INR; lia).
  assert (Hle : INR d1 <= INR d2) by (apply le_INR; lia).
  assert (Hnn : 0 < INR n) by (apply lt_0_INR; lia).
  pose proof (ln_ratio_nonneg n d2 ltac:(lia)) as Hln.
  split; [lra|]. apply Rplus_le_compat_r, ln_monotone.
  - now apply Rdiv_lt_0_compat.
  - unfold Rdiv. apply Rmult_le_compat_l; [lra|]. now apply Rinv_le_contravar.
Qed.

(** The weight of a token in the vector of a document of the corpus: its
    term frequency times its inverse document frequency. *)
Lemma tfidfVector_entry (documents : list string) (text k : string) :
  In text documents -> Obj.inherited k = false ->
  entry (tfidfVector text (inverseDocumentFrequency (J:=Exact) xlog documents)) k
  = INR (occurrences (tokenize text) k) / INR (List.length (tokenize text))
    * (ln (INR (List.length documents) / INR (documentCount documents k)) + 1).
Proof.
  intros Hd Hk. unfold entry. rewrite tfidfVector_own.
  destruct (StrSet.has (tokenize text) k) eqn:Eh.
  - apply StrSet_has_In in Eh.
    pose proof (documentCount_pos documents text k Hd Eh) as Hpos.
    pose proof (documentCount_le documents k) as Hle.
    pose proof (ln_ratio_nonneg (List.length documents) (documentCount documents k)
                  ltac:(lia)) as Hln.
    rewrite !idf_get by assumption.
    cbn [andb ToBoolean truthy Exact]. rewrite xtruthy_Fin by lra.
    unfold get at 1. rewrite termFrequency_own.
    assert (Ho : (1 <= occurrences (tokenize text) k)%nat).
    { unfold occurrences. now apply count_occ_In. }
    destruct (occurrences (tokenize text) k) as [|c] eqn:Ec; [lia|].
    rewrite Hk. reflexivity.
  - cbn [andb].
    assert (Ho : occurrences (tokenize text) k = 0%nat).
    { apply count_occ_not_In. intros Hin. apply StrSet_has_In in Hin. congruence. }
    rewrite Ho. unfold Rdiv. cbn [INR]. ring.
Qed.

End WeightFacts.

(** ** Tag overlap and scores, in exact arithmetic *)

Section ScoreFacts.

Import ExactReal.
Local Open Scope R_scope.
#[local] Existing Instance Exact.

Local Abbreviation xobject := (@object Exact).

Lemma tagOverlapScore_jaccard (tagsA tagsB : list string) :
  tagOverlapScore (J:=Exact) tagsA tagsB
  = Fin (INR (List.length (sharedTags tagsA tagsB))
         / INR (List.length (unionTags tagsA tagsB))).
Proof.
  rewrite tagOverlapScore_value.
  pose proof (sharedTags_le_unionTags tagsA tagsB) as Hle.
  destruct (List.length (unionTags tagsA tagsB)) eqn:E; [|reflexivity].
  assert (H0 : List.length (sharedTags tagsA tagsB) = 0%nat) by lia.
  rewrite H0. apply f_equal. unfold Rdiv. cbn [INR]. ring.
Qed.

Lemma filter_all {A : Type} (f : A -> bool) (l : list A) :
  (forall x, In x l -> f x = true) -> filter f l = l.
Proof.
  induction l as [|x l IH]; intros H; simpl; [reflexivity|].
  rewrite (H x) by now left. rewrite IH; [reflexivity|].
  intros y Hy. apply H. now right.
Qed.

Lemma tagOverlapScore_self (tags : list string) :
  tags <> [] -> tagOverlapScore (J:=Exact) tags tags = Fin 1.
Proof.
  intros Hne. rewrite tagOverlapScore_jaccard.
  assert (Hs : sharedTags tags tags = tagSet tags).
  { unfold sharedTags. apply filter_all. intros x Hx. now apply StrSet_has_In. }
  assert (Hu : List.length (unionTags tags tags) = List.length (tagSet tags)).
  { apply Permutation_length, NoDup_Permutation.
    - apply StrSet_from_NoDup.
    - apply StrSet_from_NoDup.
    - intros x. rewrite unionTags_In. tauto. }
  assert (Hpos : (1 <= List.length (tagSet tags))%nat).
  { destruct tags as [|t r]; [contradiction|].
    assert (Hin : In (Str.toLowerCase t) (tagSet (t :: r))).
    { apply tagSet_In. now left. }
    destruct (tagSet (t :: r)); [destruct Hin | simpl; lia]. }
  rewrite Hs, Hu. apply f_equal. field. now apply INR_pos_nonzero.
Qed.

Lemma percent_range (x : R) : 0 <= x <= 1 -> (0 <= percent x <= 100)%Z.
Proof.
  intros [H0 H1]. unfold percent. split.
  - apply round_half_up_ge. lra.
  - apply round_half_up_le. lra.
Qed.

Lemma round_half_up_monotone (a b : R) :
  a <= b -> (round_half_up a <= round_half_up b)%Z.
Proof.
  intros Hab. unfold round_half_up.
  destruct (base_Int_part (a + / 2)) as [Ha _].
  destruct (base_Int_part (b + / 2)) as [_ Hb].
  apply Zlt_succ_le, lt_IZR. rewrite succ_IZR. lra.
Qed.

Lemma display_monotone (t g t' g' : R) :
  t <= t' -> g <= g' -> (display t g <= display t' g')%Z.
Proof.
  intros Ht Hg. unfold display. apply Z.min_le_compat_r.
  apply round_half_up_monotone. lra.
Qed.

Lemma display_full_text (g : R) : 0 <= g -> display 1 g = 99%Z.
Proof.
  intros Hg. unfold display. apply Z.min_r.
  apply round_half_up_ge. lra.
Qed.

Lemma percent_one : percent 1 = 100%Z.
Proof.
  unfold percent. replace (1 * 100) with (IZR 100) by lra.
  apply round_half_up_IZR.
Qed.

Lemma plain_numeric (v : xobject) : plain_vector v -> numeric_vector v.
Proof.
  unfold plain_vector, numeric_vector. apply Forall_impl.
  intros kv [_ [r [Hr _]]]. now exists r.
Qed.

(** X21: in exact arithmetic the displayed score never falls when the text
    similarity and the tag overlap of a pair both grow or stay: of two pairs,
    the one that is at least as similar on both counts is displayed with at
    least the score of the other. *)
Theorem score_grows_with_similarity_and_overlap (pf : string -> xreal)
        (cv hv cv' hv' : Profile * xobject) (t g t' g' : R) :
  cosineSimilarity (snd cv) (snd hv) = Fin t ->
  tagOverlapScore (J:=Exact) (or_nil (tags (fst cv))) (or_nil (tags (fst hv))) = Fin g ->
  cosineSimilarity (snd cv') (snd hv') = Fin t' ->
  tagOverlapScore (J:=Exact) (or_nil (tags (fst cv'))) (or_nil (tags (fst hv'))) = Fin g' ->
  t <= t' -> g <= g' ->
  score_ge (matchPair pf cv' hv') (matchPair pf cv hv).
Proof.
  intros Ht Hg Ht' Hg' Hle Hle'.
  pose proof (matchPair_scores pf cv hv t g Ht Hg) as Hs.
  pose proof (matchPair_scores pf cv' hv' t' g' Ht' Hg') as Hs'.
  set (m := matchPair (J:=Exact) pf cv hv) in *.
  set (m' := matchPair (J:=Exact) pf cv' hv') in *.
  clearbody m m'. unfold scores in Hs, Hs'.
  exists (IZR (display t' g')), (IZR (display t g)).
  repeat split; [congruence | congruence |].
  apply IZR_le. now apply display_monotone.
Qed.

(** X21, at two pairs with the same vectors, one with equal tags and one
    with none. *)
Lemma score_grows_with_similarity_and_overlap_witness :
  score_ge (matchPair (J:=Exact) (fun _ => Fin 0)
              (Sample.named "Ana" "bay" ["Spa"], Sample.vector [("bay", 1)])
              (Sample.named "Bay" "sea" ["Spa"], Sample.vector [("bay", 1)]))
           (matchPair (J:=Exact) (fun _ => Fin 0)
              (Sample.blank, Sample.vector [("bay", 1)])
              (Sample.blank, Sample.vector [("bay", 1)])).
Proof.
  assert (Hcos : cosineSimilarity (Sample.vector [("bay", 1)]) (Sample.vector [("bay", 1)])
                 = Fin 1).
  { apply (cosineSimilarity_self _ "bay").
    - repeat constructor. simpl. eexists. reflexivity.
    - unfold entry. simpl. lra. }
  apply (score_grows_with_similarity_and_overlap (fun _ => Fin 0)
           (Sample.blank, Sample.vector [("bay", 1)])
           (Sample.blank, Sample.vector [("bay", 1)])
           (Sample.named "Ana" "bay" ["Spa"], Sample.vector [("bay", 1)])
           (Sample.named "Bay" "sea" ["Spa"], Sample.vector [("bay", 1)])
           1 0 1 1).
  - exact Hcos.
  - now rewrite tagOverlapScore_value.
  - exact Hcos.
  - apply tagOverlapScore_self. discriminate.
  - lra.
  - lra.
Defined.

(** X22: in exact arithmetic two profiles with the same text, one token of
    which at least shadows no member of the prototype, are matched with the
    text similarity 100 and with the score 99, the cap, whatever their
    tags. *)
Theorem same_text_gives_top_score (pf : string -> xreal) (a b : Profile) :
  buildProfileText a = buildProfileText b ->
  existsb (fun k => negb (Obj.inherited k)) (tokenize (buildProfileText a)) = true ->
  map (fun m => (score m, textSimilarity m)) (computeMatches (J:=Exact) xlog pf [a] [b])
  = [(Fin 99, Fin 100)].
Proof.
  intros Htext Htok. rewrite computeMatches_single.
  set (docs := map buildProfileText ([a] ++ [b])).
  assert (Hd : In (buildProfileText a) docs) by (now left).
  rewrite <- Htext.
  destruct (tfidfVector_plain docs (buildProfileText a) Hd) as [Hplain _].
  set (v := tfidfVector _ _) in *.
  apply existsb_exists in Htok. destruct Htok as [k [Hk Hi]].
  apply negb_true_iff in Hi.
  assert (Hent : entry v k <> 0).
  { subst v. rewrite tfidfVector_entry by assumption.
    pose proof (documentCount_pos docs _ k Hd Hk) as Hpos.
    pose proof (documentCount_le docs k) as Hle.
    pose proof (ln_ratio_nonneg (List.length docs) (documentCount docs k)
                  ltac:(lia)) as Hln.
    assert (Ho : (1 <= occurrences (tokenize (buildProfileText a)) k)%nat).
    { unfold occurrences. now apply count_occ_In. }
    assert (Hn : (1 <= List.length (tokenize (buildProfileText a)))%nat).
    { destruct (tokenize (buildProfileText a)); [destruct Hk | simpl; lia]. }
    apply Rgt_not_eq, Rmult_gt_0_compat; [|lra].
    apply Rdiv_lt_0_compat; apply lt_0_INR; lia. }
  pose proof (cosineSimilarity_self v k (plain_numeric v Hplain) Hent) as Hcos.
  destruct (tagOverlapScore_range (or_nil (tags a)) (or_nil (tags b))) as [g [Hg Hr]].
  pose proof (matchPair_scores pf (a, v) (b, v) 1 g Hcos Hg) as Hs.
  set (m := matchPair (J:=Exact) pf (a, v) (b, v)) in *. clearbody m.
  unfold scores in Hs. cbn [map].
  rewrite display_full_text, percent_one in Hs by lra.
  injection Hs as Hs1 Hs2 _. now rewrite Hs1, Hs2.
Qed.

(** X22, at two profiles that differ in the engagement rate alone. *)
Lemma same_text_gives_top_score_witness :
  map (fun m => (score m, textSimilarity m))
      (computeMatches (J:=Exact) xlog (fun _ => Fin 0)
         [Sample.described "spa pool" None (Some "4.2%")]
         [Sample.described "spa pool" None None])
  = [(Fin 99, Fin 100)].
Proof.
  apply (same_text_gives_top_score (fun _ => Fin 0)
           (Sample.described "spa pool" None (Some "4.2%"))
           (Sample.described "spa pool" None None)); reflexivity.
Defined.

End ScoreFacts.

(** ** Explanations *)

Lemma append_assoc (a b c : string) : ((a ++ b) ++ c = a ++ (b ++ c))%string.
Proof. induction a as [|x a IH]; simpl; [reflexivity | now rewrite IH]. Qed.

Lemma append_nonempty_r (a b : string) : b <> "" -> (a ++ b)%string <> "".
Proof. destruct a; simpl; [tauto | discriminate]. Qed.

Lemma append_nonempty_l (a b : string) : a <> "" -> (a ++ b)%string <> "".
Proof. destruct a; simpl; [tauto | discriminate]. Qed.

(** A joined list starts with its first part. *)
Lemma join_head (sep p : string) (l : list string) :
  Str.join sep (p :: l)
  = (p ++ match l with [] => "" | _ :: _ => sep ++ Str.join sep l end)%string.
Proof.
  unfold Str.join. destruct l as [|q l]; simpl.
  - induction p as [|x p IH]; simpl; [reflexivity | now rewrite <- IH].
  - reflexivity.
Qed.

Section ExplanationFacts.

Context {J : JSNumber}.
Variable parseFloat : string -> num.

(** The clauses of an explanation: what [parts] holds when it is joined. *)
Lemma generateExplanation_parts (creator hotel : Profile) (textSim tagScore : num) :
  exists (first : string) (others : list string),
    generateExplanation parseFloat creator hotel textSim tagScore
    = (Str.join ". " (first :: others) ++ ".")%string
    /\ first <> ""
    /\ (sharedTags (or_nil (tags creator)) (or_nil (tags hotel)) <> [] ->
        first = ("Both share interests in "
                 ++ Str.join ", " (sharedTags (or_nil (tags creator))
                                              (or_nil (tags hotel))))%string).
Proof.
  unfold generateExplanation. cbv zeta.
  change (filter (StrSet.has (StrSet.from (map Str.toLowerCase (or_nil (tags hotel)))))
                 (StrSet.from (map Str.toLowerCase (or_nil (tags creator)))))
    with (sharedTags (or_nil (tags creator)) (or_nil (tags hotel))).
  set (shared := sharedTags _ _).
  set (strong := (template (name creator) ++ "'s content style aligns strongly with "
                  ++ template (name hotel) ++ "'s brand")%string).
  set (good := (template (name creator) ++ "'s profile shows good alignment with "
                ++ template (name hotel) ++ "'s target audience")%string).
  set (fresh := (template (name creator)
                 ++ "'s creative approach could bring a fresh perspective to "
                 ++ template (name hotel) ++ "'s content strategy")%string).
  assert (Hstrong : strong <> "") by (apply append_nonempty_r; discriminate).
  assert (Hgood : good <> "") by (apply append_nonempty_r; discriminate).
  assert (Hfresh : fresh <> "") by (apply append_nonempty_r; discriminate).
  assert (Hshared : (0 <? List.length shared) = false -> shared <> [] -> False).
  { destruct shared; [tauto | discriminate]. }
  clearbody strong good fresh.
  destruct (0 <? List.length shared) eqn:Es;
    destruct (js_gt textSim lit_0_3);
    try destruct (js_gt textSim lit_0_15);
    destruct (engagement creator) as [e|];
    try destruct (negb (String.length e =? 0) && js_gt (parseFloat e) (of_nat 4));
    cbn [app List.length Nat.eqb];
    eexists; eexists; (split; [reflexivity|]);
    (split; [first [assumption | discriminate]
            | intros Hne; first [reflexivity | now destruct (Hshared eq_refl Hne)]]).
Qed.

End ExplanationFacts.

(** ** The results page *)

Lemma StronglySorted_filter {A : Type} (R : A -> A -> Prop) (f : A -> bool)
      (l : list A) :
  StronglySorted R l -> StronglySorted R (filter f l).
Proof.
  induction 1 as [|x l Hs IH Hx]; simpl; [constructor|].
  destruct (f x); [|exact IH]. constructor; [exact IH|].
  apply Forall_forall. intros y Hy. apply filter_In in Hy.
  exact (proj1 (Forall_forall _ l) Hx y (proj1 Hy)).
Qed.

Lemma F64_comparisons_agree : comparisons_agree F64 F64_compare.
Proof.
  intros x y. unfold js_lt. cbn [js_gt js_ge F64 F64_compare]. unfold F64_ge.
  rewrite FloatAxioms.ltb_spec, FloatAxioms.leb_spec.
  unfold SpecFloat.SFltb, SpecFloat.SFleb.
  rewrite (SFcompare_antisym (FloatOps.Prim2SF x)).
  now destruct (SpecFloat.SFcompare _ _) as [[]|].
Qed.

Section PageFacts.

Import ExactReal.
Local Open Scope R_scope.
#[local] Existing Instance Exact.

Lemma Exact_comparisons_agree : comparisons_agree Exact Exact_compare.
Proof.
  intros [|a] [|b]; try reflexivity. unfold js_lt. cbn [js_gt js_ge Exact Exact_compare].
  unfold xgt, Exact_ge. destruct (Rlt_dec a b), (Rle_dec b a); try reflexivity; try discriminate.
  lra.
Qed.

Lemma score_ge_trans (x y z : @Match Exact) :
  score_ge x y -> score_ge y z -> score_ge x z.
Proof.
  intros [a [b [Ha [Hb Hab]]]] [b' [c [Hb' [Hc Hbc]]]].
  rewrite Hb in Hb'. injection Hb' as <-.
  exists a, c. repeat split; try assumption. lra.
Qed.

Lemma computeMatches_scored (pf : string -> xreal) (cs hs : list Profile) :
  Forall (fun m => exists z, score m = Fin (IZR z) /\ (50 <= z <= 99)%Z)
         (computeMatches (J:=Exact) xlog pf cs hs).
Proof.
  apply Array_sort_Forall.
  eapply Forall_impl; [|apply allPairs_exact_scores].
  intros m. apply exact_scores_fin.
Qed.

Lemma computeMatches_sorted (pf : string -> xreal) (cs hs : list Profile) :
  Sorted score_ge (computeMatches (J:=Exact) xlog pf cs hs).
Proof.
  apply Array_sort_sorted.
  eapply Forall_impl; [|apply allPairs_exact_scores].
  intros m Hm. destruct (exact_scores_fin _ m Hm) as [z [Hz _]]. now exists (IZR z).
Qed.

(** X23: in exact arithmetic the list the page shows is in descending order
    of score, whatever filter and minimum score are set: the rank of a card
    follows its score. *)
Theorem shown_matches_are_ranked (pf : string -> xreal) (cs hs : list Profile)
      (filter : string) (minScore : xreal) :
  Sorted score_ge
         (filteredMatches (computeMatches (J:=Exact) xlog pf cs hs) filter minScore).
Proof.
  apply StronglySorted_Sorted, StronglySorted_filter, Sorted_StronglySorted.
  - intros x y z. apply score_ge_trans.
  - apply computeMatches_sorted.
Qed.

(** X24: in exact arithmetic the page shows every match under the filter
    [all] for as long as the minimum score is 50 or less, in particular in
    its initial state, where it is 0. *)
Theorem low_minimum_shows_every_match (pf : string -> xreal) (cs hs : list Profile)
        (r : R) :
  r <= 50 ->
  filteredMatches (computeMatches (J:=Exact) xlog pf cs hs) "all" (Fin r)
  = computeMatches (J:=Exact) xlog pf cs hs.
Proof.
  intros Hr. unfold filteredMatches. apply filter_all. intros m Hm.
  destruct (proj1 (Forall_forall _ _) (computeMatches_scored pf cs hs) m Hm)
    as [z [Hz [Hlo _]]].
  unfold shown, js_lt. rewrite Hz. cbn [js_gt Exact xgt String.eqb Ascii.eqb Bool.eqb].
  destruct (Rlt_dec (IZR z) r) as [Hlt|_]; [|reflexivity].
  apply IZR_le in Hlo. lra.
Qed.

(** X24, at the initial state of the page and one pair. *)
Lemma low_minimum_shows_every_match_witness :
  filteredMatches (computeMatches (J:=Exact) xlog (fun _ => Fin 0)
                     [Sample.named "Coral" "bay" ["Sea"]]
                     [Sample.named "Alpine" "ski" ["Snow"]])
                  "all" (Fin 0)
  = computeMatches (J:=Exact) xlog (fun _ => Fin 0)
      [Sample.named "Coral" "bay" ["Sea"]] [Sample.named "Alpine" "ski" ["Snow"]].
Proof.
  apply (low_minimum_shows_every_match (fun _ => Fin 0)
           [Sample.named "Coral" "bay" ["Sea"]]
           [Sample.named "Alpine" "ski" ["Snow"]] 0).
  lra.
Defined.

End PageFacts.

Section BadgeFacts.

Context {J : JSNumber} {C : JSCompare J} (law : comparisons_agree J C).

Lemma shown_badge (minScore : num) (m : Match) :
  (shown "top" minScore m = true -> scoreClass m = "score-high")
  /\ (shown "good" minScore m = true -> scoreClass m = "score-good").
Proof.
  unfold shown, scoreClass. cbn [String.eqb Ascii.eqb Bool.eqb].
  destruct (js_lt (score m) minScore); [split; discriminate|]. split.
  - now intros ->.
  - intros H. apply andb_true_iff in H. destruct H as [H65 H80].
    now rewrite (law _ _ H80), H65.
Qed.

End BadgeFacts.

(** * Further theorems *)

(** ** Tokens and profile texts *)

(** X2: [tokenize] does not see the case of its text: the text and its
    lower-case form have the same tokens. *)
Theorem tokenize_ignores_case (text : string) :
  tokenize (Str.toLowerCase text) = tokenize text.
Proof. unfold tokenize. now rewrite toLowerCase_idempotent. Qed.

(** X3: the tokens of texts joined by single spaces are the tokens of the
    first text, then those of the second, and so on: no token spans two of
    the texts, and an empty text adds none. *)
Theorem tokenize_joined_texts (parts : list string) :
  tokenize (Str.join " " parts) = flat_map tokenize parts.
Proof. apply tokenize_join. Qed.

(** X4: the tokens of a profile's text are those of its name, of its
    description, of each of its tags in turn, of its niche, of its location
    and of its type, in this order; an absent field adds none. *)
Theorem profile_tokens_by_field (p : Profile) :
  tokenize (buildProfileText p)
  = tokenize (or_empty (name p)) ++ tokenize (or_empty (description p))
    ++ flat_map tokenize (or_nil (tags p))
    ++ tokenize (or_empty (niche p)) ++ tokenize (or_empty (location p))
    ++ tokenize (or_empty (type p)).
Proof.
  unfold buildProfileText. cbv zeta. rewrite tokenize_join.
  cbn [app flat_map]. rewrite flat_map_app. cbn [flat_map].
  now rewrite app_nil_r.
Qed.

(** ** Keys of the frequency objects, in any arithmetic *)

Lemma insert_index_HdRel (x y : N * string) (l : list (N * string)) :
  index_le y x -> HdRel index_le y l -> HdRel index_le y (Obj.insert_index x l).
Proof.
  intros Hyx Hl. destruct l as [|z r]; cbn [Obj.insert_index].
  - now constructor.
  - destruct (fst x <? fst z)%N; constructor; auto. now inversion Hl.
Qed.

Lemma insert_index_sorted (x : N * string) (l : list (N * string)) :
  Sorted index_le l -> Sorted index_le (Obj.insert_index x l).
Proof.
  intros Hs. induction l as [|y r IH]; cbn [Obj.insert_index].
  - repeat constructor.
  - inversion Hs as [|? ? Hsr Hhd]; subst.
    destruct (fst x <? fst y)%N eqn:E.
    + constructor; [exact Hs|]. constructor. unfold index_le.
      apply N.ltb_lt in E. lia.
    + constructor; [now apply IH|]. apply insert_index_HdRel; [|exact Hhd].
      unfold index_le. apply N.ltb_ge in E. exact E.
Qed.

Lemma index_sort_sorted (l : list (N * string)) :
  Sorted index_le (fold_right Obj.insert_index [] l).
Proof.
  induction l as [|x r IH]; cbn [fold_right]; [constructor|].
  now apply insert_index_sorted.
Qed.

Lemma index_sort_perm (l : list (N * string)) :
  Permutation (fold_right Obj.insert_index [] l) l.
Proof.
  induction l as [|x r IH]; cbn [fold_right]; [constructor|].
  eapply perm_trans; [apply insert_index_perm|]. now constructor.
Qed.

Lemma index_keys_indices (ks : list string) :
  Forall (fun nk => Obj.array_index (snd nk) = Some (fst nk)) (Obj.index_keys ks).
Proof.
  unfold Obj.index_keys. induction ks as [|k ks IH]; cbn [flat_map]; [constructor|].
  destruct (Obj.array_index k) eqn:E; cbn [app]; [constructor|]; assumption.
Qed.

(** X5: the keys of the object [termFrequency] returns for the tokens of a
    text, as [Object.keys] and [for ... in] enumerate them, are the distinct
    tokens, each once: first the tokens that are array indices (numerals such
    as 10 and 42), in ascending numeric order, then the other tokens in the
    order of their first occurrence. *)
Theorem termFrequency_keys_are_distinct_tokens (J : JSNumber) (text : string) :
  NoDup (Obj.keys (termFrequency (tokenize text)))
  /\ (forall k, In k (Obj.keys (termFrequency (tokenize text))) <-> In k (tokenize text))
  /\ exists indices : list (N * string),
       Obj.keys (termFrequency (tokenize text))
       = map snd indices
         ++ filter (fun k => negb (Obj.is_index k)) (StrSet.from (tokenize text))
       /\ Sorted index_le indices
       /\ Forall (fun nk => Obj.array_index (snd nk) = Some (fst nk)) indices.
Proof.
  unfold Obj.keys. rewrite termFrequency_keys_order. split; [|split].
  - eapply Permutation_NoDup; [|apply StrSet_from_NoDup].
    apply Permutation_sym, enumeration_order_perm.
  - intros k. rewrite <- (StrSet_from_In (tokenize text) k).
    split; apply Permutation_in;
      [|apply Permutation_sym]; apply enumeration_order_perm.
  - exists (fold_right Obj.insert_index [] (Obj.index_keys (StrSet.from (tokenize text)))).
    split; [reflexivity|]. split; [apply index_sort_sorted|].
    eapply Permutation_Forall; [|apply index_keys_indices].
    apply Permutation_sym, index_sort_perm.
Qed.

(** X7: [tfidfVector] keeps a token of the text exactly when the weight
    [idf[word]] is truthy: a token that [idf] does not know, or knows with
    the weight [0] or [NaN], is dropped, and no other key is added. *)
Theorem tfidfVector_keeps_weighted_tokens (J : JSNumber) (text : string)
        (idf : object) (k : string) :
  In k (map fst (tfidfVector text idf))
  <-> In k (tokenize text) /\ ToBoolean (get idf k) = true.
Proof. apply tfidfVector_keys. Qed.

(** ** Tag overlap, in any arithmetic *)

(** X8: [tagOverlapScore] is symmetric, in binary64 as in any arithmetic:
    both directions divide the same two counts. *)
Theorem tagOverlapScore_symmetric (J : JSNumber) (tagsA tagsB : list string) :
  tagOverlapScore tagsA tagsB = tagOverlapScore tagsB tagsA.
Proof.
  rewrite !tagOverlapScore_counts.
  destruct (tag_counts_sym tagsA tagsB) as [-> ->]. reflexivity.
Qed.

(** X9: [tagOverlapScore] reads its two lists as sets of lower-cased tags:
    the case of a tag, its place in the list and its repetitions do not
    change the score. *)
Theorem tagOverlapScore_reads_tag_sets (J : JSNumber) (a b a' b' : list string) :
  (forall x, In x (map Str.toLowerCase a) <-> In x (map Str.toLowerCase a')) ->
  (forall x, In x (map Str.toLowerCase b) <-> In x (map Str.toLowerCase b')) ->
  tagOverlapScore a b = tagOverlapScore a' b'.
Proof.
  intros Ha Hb. rewrite !tagOverlapScore_counts.
  destruct (tag_counts_ext a b a' b' Ha Hb) as [-> ->]. reflexivity.
Qed.

(** X9, at tags that differ in case, order and repetition, in binary64. *)
Lemma tagOverlapScore_reads_tag_sets_witness :
  tagOverlapScore (J:=F64) ["Spa"; "spa"; "Pool"] ["Luxury"; "SPA"]
  = tagOverlapScore (J:=F64) ["POOL"; "SPA"] ["spa"; "luxury"].
Proof.
  apply (tagOverlapScore_reads_tag_sets F64); intros x; simpl; tauto.
Defined.

(** ** The matches, in any arithmetic *)

(** X10: [computeMatches] returns every pair of a creator and a hotel exactly
    once: the pairs of its matches are a rearrangement of the cross product,
    whatever the arithmetic does to the scores. *)
Theorem computeMatches_pairs_each_once (J : JSNumber) (Math_log : num -> num)
        (parseFloat : string -> num) (creators hotels : list Profile) :
  Permutation (map pair_of (computeMatches Math_log parseFloat creators hotels))
              (list_prod creators hotels).
Proof.
  unfold computeMatches. rewrite <- (allPairs_order Math_log parseFloat).
  apply Permutation_map, Array_sort_perm.
Qed.

(** ** Explanations, in any arithmetic *)

(** X11: an explanation is never empty: it is a non-empty text followed by a
    period. *)
Theorem explanation_ends_with_period (J : JSNumber) (parseFloat : string -> num)
        (creator hotel : Profile) (textSim tagScore : num) :
  exists body : string,
    generateExplanation parseFloat creator hotel textSim tagScore
    = (body ++ ".")%string
    /\ body <> "".
Proof.
  destruct (generateExplanation_parts parseFloat creator hotel textSim tagScore)
    as [first [others [Heq [Hne _]]]].
  exists (Str.join ". " (first :: others)). split; [exact Heq|].
  rewrite join_head. now apply append_nonempty_l.
Qed.

(** X12: when the two profiles share a tag, without regard to case, the
    explanation starts by listing the shared tags, lower-cased, in the order
    of the creator's tags. *)
Theorem explanation_lists_shared_tags_first (J : JSNumber) (parseFloat : string -> num)
        (creator hotel : Profile) (textSim tagScore : num) :
  sharedTags (or_nil (tags creator)) (or_nil (tags hotel)) <> [] ->
  exists rest : string,
    generateExplanation parseFloat creator hotel textSim tagScore
    = ("Both share interests in "
       ++ Str.join ", " (sharedTags (or_nil (tags creator)) (or_nil (tags hotel)))
       ++ rest)%string.
Proof.
  intros Hne.
  destruct (generateExplanation_parts parseFloat creator hotel textSim tagScore)
    as [first [others [Heq [_ Hfirst]]]].
  rewrite Heq, join_head, (Hfirst Hne), !append_assoc. eexists. reflexivity.
Qed.

(** X12, at a creator and a hotel that share the tags spa and pool. *)
Lemma explanation_lists_shared_tags_first_witness :
  exists rest : string,
    generateExplanation (J:=F64) (fun _ => PrimFloat.zero)
      (Sample.named "Ana" "bay" ["Pool"; "Ski"; "SPA"])
      (Sample.named "Bay" "sea" ["spa"; "pool"]) PrimFloat.zero PrimFloat.zero
    = ("Both share interests in "
       ++ Str.join ", " (sharedTags ["Pool"; "Ski"; "SPA"] ["spa"; "pool"])
       ++ rest)%string.
Proof.
  apply (explanation_lists_shared_tags_first F64 (fun _ => PrimFloat.zero)
           (Sample.named "Ana" "bay" ["Pool"; "Ski"; "SPA"])
           (Sample.named "Bay" "sea" ["spa"; "pool"])).
  vm_compute. discriminate.
Defined.

(** ** Frequencies, weights and scores, in exact arithmetic *)

Section ExactTheorems.

Import ExactReal.
Local Open Scope R_scope.
#[local] Existing Instance Exact.

Local Abbreviation xobject := (@object Exact).
Local Abbreviation vnum r := (@VNum Exact (Fin r)).

(** X13: in exact arithmetic the term frequency of a token is the number of
    its occurrences divided by the number of tokens, and a string that is no
    token has none; this for every key that shadows no member of the
    prototype. *)
Theorem termFrequency_is_share_of_tokens (tokens : list string) (k : string) :
  Obj.inherited k = false ->
  get (termFrequency tokens) k
  = match occurrences tokens k with
    | O => VUndef
    | S _ => vnum (INR (occurrences tokens k) / INR (List.length tokens))
    end.
Proof.
  intros Hk. unfold get. rewrite termFrequency_own.
  destruct (occurrences tokens k); now rewrite Hk.
Qed.

(** X13, at a token that makes up two of three. *)
Lemma termFrequency_is_share_of_tokens_witness :
  get (termFrequency ["spa"; "pool"; "spa"]) "spa" = vnum (INR 2 / INR 3).
Proof.
  apply (termFrequency_is_share_of_tokens ["spa"; "pool"; "spa"] "spa").
  reflexivity.
Defined.

(** X15: in exact arithmetic, in the vector of a document of the corpus, a
    token that shadows no member of the prototype has the weight
    [occurrences / tokens * (ln(N / df) + 1)], its term frequency times its
    inverse document frequency; a string that is no token of the document
    has the weight 0, and so has a token that shadows a member of the
    prototype ([constructor]), which gets no entry. *)
Theorem tfidfVector_weight (documents : list string) (text k : string) :
  In text documents ->
  entry (tfidfVector text (inverseDocumentFrequency (J:=Exact) xlog documents)) k
  = if Obj.inherited k then 0
    else INR (occurrences (tokenize text) k) / INR (List.length (tokenize text))
         * (ln (INR (List.length documents) / INR (documentCount documents k)) + 1).
Proof.
  intros Hd. destruct (Obj.inherited k) eqn:Hk; [|now apply tfidfVector_entry].
  unfold entry. rewrite tfidfVector_own.
  destruct (StrSet.has (tokenize text) k) eqn:Eh; [|reflexivity].
  apply StrSet_has_In in Eh.
  pose proof (documentCount_pos documents text k Hd Eh) as Hpos.
  unfold get at 1. rewrite inverseDocumentFrequency_own.
  destruct (documentCount documents k); [lia|]. now rewrite Hk.
Qed.

(** X15, at the token pool of the first of two documents, and at the token
    constructor. *)
Lemma tfidfVector_weight_witness :
  entry (tfidfVector "spa pool"
           (inverseDocumentFrequency (J:=Exact) xlog ["spa pool"; "spa"])) "pool"
  = INR (occurrences (tokenize "spa pool") "pool")
    / INR (List.length (tokenize "spa pool"))
    * (ln (INR (List.length ["spa pool"; "spa"])
           / INR (documentCount ["spa pool"; "spa"] "pool")) + 1)
  /\
  entry (tfidfVector "spa constructor"
           (inverseDocumentFrequency (J:=Exact) xlog ["spa constructor"; "spa"]))
        "constructor"
  = 0.
Proof.
  split.
  - apply (tfidfVector_weight ["spa pool"; "spa"] "spa pool" "pool").
    left. reflexivity.
  - apply (tfidfVector_weight ["spa constructor"; "spa"] "spa constructor"
             "constructor").
    left. reflexivity.
Defined.

(** X16: in exact arithmetic, of the tokens that shadow no member of the
    prototype, each has an inverse document frequency of at least 1, and of
    two of them the one that occurs in fewer documents has the larger weight,
    or the same.  (A token that shadows a member of the prototype,
    [constructor], has the weight [NaN].) *)
Theorem idf_rarer_tokens_weigh_more (documents : list string) (k1 k2 : string) :
  Obj.inherited k1 = false -> Obj.inherited k2 = false ->
  (1 <= documentCount documents k1 <= documentCount documents k2)%nat ->
  exists w1 w2 : R,
    get (inverseDocumentFrequency (J:=Exact) xlog documents) k1 = vnum w1 /\
    get (inverseDocumentFrequency (J:=Exact) xlog documents) k2 = vnum w2 /\
    1 <= w2 <= w1.
Proof.
  intros H1 H2 Hdf. pose proof (documentCount_le documents k2) as Hle.
  rewrite !idf_get by (assumption || lia).
  eexists. eexists. split; [reflexivity|]. split; [reflexivity|].
  now apply idf_weight_order.
Qed.

(** X16, at a token of one document and a token of two. *)
Lemma idf_rarer_tokens_weigh_more_witness :
  exists w1 w2 : R,
    get (inverseDocumentFrequency (J:=Exact) xlog ["spa pool"; "spa"]) "pool"
    = vnum w1 /\
    get (inverseDocumentFrequency (J:=Exact) xlog ["spa pool"; "spa"]) "spa"
    = vnum w2 /\
    1 <= w2 <= w1.
Proof.
  apply (idf_rarer_tokens_weigh_more ["spa pool"; "spa"] "pool" "spa").
  - reflexivity.
  - reflexivity.
  - vm_compute. lia.
Defined.

(** X17: in exact arithmetic a token that shadows no member of the prototype
    and occurs in every document of the corpus has the inverse document
    frequency 1, exactly.  (The token [constructor] has the weight [NaN]
    there too.) *)
Theorem idf_of_ubiquitous_token (documents : list string) (k : string) :
  Obj.inherited k = false -> documents <> [] ->
  documentCount documents k = List.length documents ->
  get (inverseDocumentFrequency (J:=Exact) xlog documents) k = vnum 1.
Proof.
  intros Hk Hne Hall.
  assert (Hpos : (1 <= List.length documents)%nat).
  { destruct documents; [contradiction | simpl; lia]. }
  rewrite idf_get by (assumption || lia). rewrite Hall. fin_eq.
  unfold Rdiv. rewrite Rinv_r by now apply INR_pos_nonzero.
  rewrite ln_1. ring.
Qed.

(** X17, at the token of both of two documents. *)
Lemma idf_of_ubiquitous_token_witness :
  get (inverseDocumentFrequency (J:=Exact) xlog ["spa pool"; "spa"]) "spa" = vnum 1.
Proof.
  apply (idf_of_ubiquitous_token ["spa pool"; "spa"] "spa").
  - reflexivity.
  - discriminate.
  - reflexivity.
Defined.

(** X18: in exact arithmetic [tagOverlapScore] is the Jaccard index of the
    two sets of lower-cased tags, the number of shared tags divided by the
    number of tags of either list, a number from 0 to 1; it is 0 when both
    lists are empty. *)
Theorem tagOverlapScore_is_jaccard_index (tagsA tagsB : list string) :
  tagOverlapScore (J:=Exact) tagsA tagsB
  = Fin (INR (List.length (sharedTags tagsA tagsB))
         / INR (List.length (unionTags tagsA tagsB)))
  /\ 0 <= INR (List.length (sharedTags tagsA tagsB))
          / INR (List.length (unionTags tagsA tagsB)) <= 1
  /\ tagOverlapScore (J:=Exact) [] [] = Fin 0.
Proof.
  split; [apply tagOverlapScore_jaccard|]. split.
  - destruct (tagOverlapScore_range tagsA tagsB) as [g [Hg Hr]].
    rewrite tagOverlapScore_jaccard in Hg. injection Hg as <-. exact Hr.
  - now rewrite tagOverlapScore_value.
Qed.

(** X19: in exact arithmetic two non-empty tag lists with the same tags,
    without regard to case, order and repetition, have the overlap 1. *)
Theorem tagOverlapScore_of_equal_tag_sets (tagsA tagsB : list string) :
  tagsA <> [] ->
  (forall x, In x (map Str.toLowerCase tagsA) <-> In x (map Str.toLowerCase tagsB)) ->
  tagOverlapScore (J:=Exact) tagsA tagsB = Fin 1.
Proof.
  intros Hne Hsame. rewrite <- (tagOverlapScore_self tagsA Hne).
  rewrite !tagOverlapScore_jaccard.
  destruct (tag_counts_ext tagsA tagsA tagsA tagsB) as [<- <-];
    [tauto | exact Hsame | reflexivity].
Qed.

(** X19, at the tags Spa and spa. *)
Lemma tagOverlapScore_of_equal_tag_sets_witness :
  tagOverlapScore (J:=Exact) ["Spa"] ["spa"] = Fin 1.
Proof.
  apply (tagOverlapScore_of_equal_tag_sets ["Spa"] ["spa"]).
  - discriminate.
  - intros x. simpl. tauto.
Defined.

End ExactTheorems.

Section ScoreTheorems.

Import ExactReal.
Local Open Scope R_scope.
#[local] Existing Instance Exact.

(** X20: in exact arithmetic the two percentages of every match, text
    similarity and tag overlap, are integers from 0 to 100. *)
Theorem percentages_are_whole_numbers (parseFloat : string -> xreal)
        (creators hotels : list Profile) :
  Forall (fun m : @Match Exact =>
            exists zt zg : Z,
              textSimilarity m = Fin (IZR zt) /\ tagOverlap m = Fin (IZR zg) /\
              (0 <= zt <= 100)%Z /\ (0 <= zg <= 100)%Z)
         (computeMatches (J:=Exact) xlog parseFloat creators hotels).
Proof.
  unfold computeMatches. apply Array_sort_Forall.
  eapply Forall_impl; [|apply allPairs_exact_scores].
  intros m (t & g & _ & _ & Ht & Hg & Hs).
  unfold scores in Hs. injection Hs as _ Hs1 Hs2.
  exists (percent t), (percent g).
  repeat split; try assumption; now apply percent_range.
Qed.

(** X28: in exact arithmetic every displayScore [computeMatches] returns is
    an integer from 50 to 99. *)
Theorem display_scores_are_in_range_exact (parseFloat : string -> xreal)
        (creators hotels : list Profile) :
  Forall (fun m : @Match Exact =>
            exists z : Z, score m = Fin (IZR z) /\ (50 <= z <= 99)%Z)
         (computeMatches (J:=Exact) xlog parseFloat creators hotels).
Proof. apply computeMatches_scored. Qed.

End ScoreTheorems.

(** X25: the filters of the page agree with the badges of the cards, in
    binary64 and in exact arithmetic alike: a match shown under the filter
    [top] has the badge [score-high], and a match shown under the filter
    [good] has the badge [score-good]. *)
Theorem filters_agree_with_badges :
  (forall (matches : list (@Match F64)) (minScore : PrimFloat.float),
      Forall (fun m => scoreClass m = "score-high")
             (filteredMatches matches "top" minScore)
      /\ Forall (fun m => scoreClass m = "score-good")
                (filteredMatches matches "good" minScore))
  /\
  (forall (matches : list (@Match Exact)) (minScore : ExactReal.xreal),
      Forall (fun m => scoreClass m = "score-high")
             (filteredMatches matches "top" minScore)
      /\ Forall (fun m => scoreClass m = "score-good")
                (filteredMatches matches "good" minScore)).
Proof.
  split; intros matches minScore; split; apply Forall_forall; intros m Hm;
    apply filter_In in Hm; destruct Hm as [_ Hm].
  - now apply (shown_badge F64_comparisons_agree minScore m).
  - now apply (shown_badge F64_comparisons_agree minScore m).
  - now apply (shown_badge Exact_comparisons_agree minScore m).
  - now apply (shown_badge Exact_comparisons_agree minScore m).
Qed.

(** ** Edge cases *)

(** X26: with no creator or with no hotel, [computeMatches] returns the
    empty list, in any arithmetic. *)
Theorem no_profiles_no_matches (J : JSNumber) (Math_log : num -> num)
        (parseFloat : string -> num) (profiles : list Profile) :
  computeMatches Math_log parseFloat [] profiles = []
  /\ computeMatches Math_log parseFloat profiles [] = [].
Proof.
  split; apply length_zero_iff_nil; rewrite computeMatches_length;
    cbn [List.length]; lia.
Qed.

Section VectorTheorems.

Import ExactReal.
Local Open Scope R_scope.
#[local] Existing Instance Exact.

(** X27: in exact arithmetic every key of the vector of a document of the
    corpus is a token of the document that shadows no member of the
    prototype, and its weight is a positive number: the token [constructor],
    whose inverse document frequency is [NaN], is dropped. *)
Theorem corpus_vector_weights_are_positive (documents : list string) (text k : string) :
  In text documents ->
  In k (map fst (tfidfVector text (inverseDocumentFrequency (J:=Exact) xlog documents))) ->
  In k (tokenize text) /\ Obj.inherited k = false /\
  exists r : R,
    get (tfidfVector text (inverseDocumentFrequency (J:=Exact) xlog documents)) k
    = VNum (J:=Exact) (Fin r) /\ 0 < r.
Proof.
  intros Hd Hk.
  destruct (tfidfVector_plain documents text Hd) as [Hplain Hkeys].
  cbv zeta in Hplain, Hkeys.
  pose proof (tfidfVector_entry documents text k Hd) as Hent.
  set (v := tfidfVector text _) in *.
  pose proof (Hkeys k Hk) as Htok. split; [exact Htok|].
  destruct (In_own v k Hk) as [x Hx].
  pose proof (proj1 (Forall_forall _ v) Hplain (k, x) (own_In v k x Hx))
    as [Hi [r [Hr _]]].
  cbn [fst snd] in Hi, Hr. split; [exact Hi|].
  exists r. unfold get. rewrite Hx. split; [exact Hr|].
  specialize (Hent Hi). unfold entry in Hent. rewrite Hx, Hr in Hent.
  rewrite Hent.
  pose proof (documentCount_pos documents text k Hd Htok) as Hpos.
  pose proof (documentCount_le documents k) as Hle.
  pose proof (ln_ratio_nonneg (List.length documents) (documentCount documents k)
                ltac:(lia)) as Hln.
  assert (Ho : (1 <= occurrences (tokenize text) k)%nat).
  { unfold occurrences. now apply count_occ_In. }
  assert (Hn : (1 <= List.length (tokenize text))%nat).
  { destruct (tokenize text); [destruct Htok | simpl; lia]. }
  apply Rmult_lt_0_compat; [|lra].
  apply Rdiv_lt_0_compat; apply lt_0_INR; lia.
Qed.

(** X27, at the token spa of the first of two documents. *)
Lemma corpus_vector_weights_are_positive_witness :
  In "spa" (tokenize "spa pool") /\ Obj.inherited "spa" = false /\
  exists r : R,
    get (tfidfVector "spa pool"
           (inverseDocumentFrequency (J:=Exact) xlog ["spa pool"; "spa"])) "spa"
    = VNum (J:=Exact) (Fin r) /\ 0 < r.
Proof.
  apply (corpus_vector_weights_are_positive ["spa pool"; "spa"] "spa pool" "spa").
  - left. reflexivity.
  - apply tfidfVector_keys. split; [left; reflexivity|].
    rewrite idf_get; [|reflexivity|vm_compute; lia].
    cbn [ToBoolean truthy Exact]. apply xtruthy_Fin.
    pose proof (ln_ratio_nonneg (List.length ["spa pool"; "spa"])
                  (documentCount ["spa pool"; "spa"] "spa")
                  ltac:(vm_compute; lia)).
    lra.
Defined.

End VectorTheorems.

(** ** The cap of the score, in binary64 *)

Lemma F64_lt_le (x y : PrimFloat.float) :
  PrimFloat.ltb x y = true -> PrimFloat.leb x y = true.
Proof.
  rewrite FloatAxioms.ltb_spec, FloatAxioms.leb_spec.
  unfold SpecFloat.SFltb, SpecFloat.SFleb.
  now destruct (SpecFloat.SFcompare _ _) as [[]|].
Qed.

Lemma Binary64_min_cap (x : PrimFloat.float) :
  PrimFloat.is_nan (Binary64.min x (Binary64.of_nat 99)) = true
  \/ PrimFloat.leb (Binary64.min x (Binary64.of_nat 99)) (Binary64.of_nat 99) = true.
Proof.
  unfold Binary64.min.
  change (PrimFloat.is_nan (Binary64.of_nat 99)) with false. rewrite orb_false_r.
  destruct (PrimFloat.is_nan x) eqn:Hn; [now left|]. right.
  destruct (PrimFloat.ltb x (Binary64.of_nat 99)) eqn:H1; [now apply F64_lt_le|].
  destruct (PrimFloat.ltb (Binary64.of_nat 99) x) eqn:H2; [reflexivity|].
  destruct (PrimFloat.ltb (PrimFloat.div _ x) _); [|reflexivity].
  now apply F64_not_lt_ge.
Qed.

Lemma allPairs_matchPair {J : JSNumber} (lg : num -> num) (pf : string -> num)
      (cs hs : list Profile) :
  Forall (fun m => exists cv hv, m = matchPair pf cv hv) (allPairs lg pf cs hs).
Proof.
  unfold allPairs. apply Forall_forall. intros m Hm.
  apply in_flat_map in Hm. destruct Hm as [cv [_ Hm]].
  apply in_map_iff in Hm. destruct Hm as [hv [<- _]]. eauto.
Qed.

(** X29: in binary64, whatever [Math.log] and [parseFloat] compute, no
    displayScore is above the cap: every score is at most 99, or [NaN]. *)
Theorem display_score_is_capped_binary64
        (Math_log : PrimFloat.float -> PrimFloat.float)
        (parseFloat : string -> PrimFloat.float) (creators hotels : list Profile) :
  Forall (fun m : @Match F64 =>
            PrimFloat.is_nan (score m) = true
            \/ PrimFloat.leb (score m) (@of_nat F64 99) = true)
         (computeMatches (J:=F64) Math_log parseFloat creators hotels).
Proof.
  unfold computeMatches. apply Array_sort_Forall.
  eapply Forall_impl; [|apply allPairs_matchPair].
  intros m [cv [hv ->]]. cbn [score matchPair Math_min F64 of_nat].
  apply Binary64_min_cap.
Qed.

(** ** Tokens and the prototype *)

(** X30: the only token that shadows a member of [Object.prototype] is
    [constructor]: every other inherited name has an upper-case letter or an
    underscore, which no token has. *)
Theorem constructor_is_the_only_shadowing_token (text k : string) :
  In k (tokenize text) -> Obj.inherited k = true -> k = "constructor".
Proof.
  intros Hk Hi. apply tokenize_alnum in Hk.
  unfold Obj.inherited in Hi. apply existsb_exists in Hi.
  destruct Hi as [n [Hn E]]. apply String.eqb_eq in E. subst n.
  unfold Obj.prototype_names in Hn. cbn [In] in Hn.
  repeat (destruct Hn as [<-|Hn]; [first [reflexivity | discriminate Hk]|]).
  destruct Hn.
Qed.

(** X30, at a text that holds the word. *)
Lemma constructor_is_the_only_shadowing_token_witness :
  "constructor" = "constructor".
Proof.
  apply (constructor_is_the_only_shadowing_token "Constructor of dreams" "constructor").
  - left. reflexivity.
  - reflexivity.
Defined.
